(** * peru: command registration and longest-match dispatch (peru/main.py)

    A shallow embedding of [peru/main.py]: the command registry filled by
    the [@command] decorator, [find_matching_command], the [Main] handlers,
    [print_red] and [main], together with the properties the specification
    states about them. *)

From Stdlib Require Import Ascii.
From stdpp Require Import base option list gmap strings sorting.

(** ** Python values held by the argument dictionary

    docopt maps every name of the usage text to [None], a [bool], a [str]
    or a list of [str]. *)

Inductive value : Type :=
| VNone
| VBool (b : bool)
| VStr (s : string)
| VList (l : list string).

#[global] Instance value_eq_dec : EqDecision value.
Proof. solve_decision. Defined.

(** Python truth value testing: [None], [False], the empty string and the
    empty list are false, everything else is true. *)
Definition truthy (v : value) : bool :=
  match v with
  | VNone => false
  | VBool b => b
  | VStr s => negb (String.eqb s "")
  | VList l => match l with [] => false | _ :: _ => true end
  end.

(** ** Exceptions and results *)

Inductive exn : Type :=
| KeyError (key : value)
| AttributeError (attr : string)
| PrintableError (msg : string)
| DocoptExit (usage : string)
| SystemExit (code : Z)
| OtherError (what : string).

Inductive outcome (A : Type) : Type :=
| Ok (a : A)
| Raise (e : exn).
Arguments Ok {A} a.
Arguments Raise {A} e.

#[global] Instance outcome_ret : MRet outcome := @Ok.
#[global] Instance outcome_bind : MBind outcome := fun A B f m =>
  match m with
  | Ok a => f a
  | Raise e => Raise e
  end.

(** The argument dictionary: [args[name]] raises [KeyError] on a name
    that is not a key. *)
Abbreviation Args := (gmap string value).

Definition getitem (args : Args) (name : string) : outcome value :=
  match args !! name with
  | Some v => Ok v
  | None => Raise (KeyError (VStr name))
  end.

(** ** The command registry

    [commands_map] is a dict keyed by tuples of sub-command names; it is
    kept here as the list of its items in iteration order. *)

Abbreviation Path := (list string).

Section Registry.
Context {H : Type}.

Abbreviation Registry := (list (Path * H)).

(** [commands_map[key] = f]: an existing key keeps its place and takes
    the new handler, a new key goes last. *)
Fixpoint dict_set (reg : Registry) (key : Path) (f : H) : Registry :=
  match reg with
  | [] => [(key, f)]
  | (k, g) :: rest =>
      if decide (k = key) then (k, f) :: rest
      else (k, g) :: dict_set rest key f
  end.

(** The decorator returned by [command] for a given sub-command list,
    applied to [f]. *)
Definition command (subcommand_list : Path) (f : H) (reg : Registry)
  : Registry :=
  dict_set reg subcommand_list f.

(** [all(args[cmd] for cmd in cmds)]: stops at the first false value;
    a missing name met before that raises. *)
Fixpoint all_args (args : Args) (cmds : Path) : outcome bool :=
  match cmds with
  | [] => Ok true
  | cmd :: rest =>
      v ← getitem args cmd;
      if truthy v then all_args args rest else Ok false
  end.

(** The list comprehension building [matches]. *)
Fixpoint matches_of (args : Args) (items : Registry) : outcome Registry :=
  match items with
  | [] => Ok []
  | (cmds, f) :: rest =>
      b ← all_args args cmds;
      ms ← matches_of args rest;
      mret (if b : bool then (cmds, f) :: ms else ms)
  end.

(** The loop over [matches[1:]]: a strictly longer path replaces the
    current choice. *)
Fixpoint longest_from (longest : Path * H) (ms : Registry) : Path * H :=
  match ms with
  | [] => longest
  | (cmds, f) :: rest =>
      if decide (length (fst longest) < length cmds)
      then longest_from (cmds, f) rest
      else longest_from longest rest
  end.

Definition longest_match (ms : Registry) : option (Path * H) :=
  match ms with
  | [] => None
  | m0 :: rest => Some (longest_from m0 rest)
  end.

Definition find_matching_command_in (reg : Registry) (args : Args)
  : outcome (option H) :=
  ms ← matches_of args reg;
  mret (snd <$> longest_match ms).

End Registry.

(** The handlers registered in [Main], named after the methods. *)
Inductive handler : Type :=
| do_sync_h
| do_build_h
| do_reup_h
| do_override_h
| do_override_add_h
| do_override_delete_h
| do_copy_h
| do_clean_h.

#[global] Instance handler_eq_dec : EqDecision handler.
Proof. solve_decision. Defined.

(** [commands_map] after the class body of [Main] has run: one
    registration per decorated method, in source order. *)
Definition commands_map : list (Path * handler) :=
  command ["clean"] do_clean_h
  (command ["copy"] do_copy_h
  (command ["override"; "delete"] do_override_delete_h
  (command ["override"; "add"] do_override_add_h
  (command ["override"] do_override_h
  (command ["reup"] do_reup_h
  (command ["build"] do_build_h
  (command ["sync"] do_sync_h [] ))))))).

Definition find_matching_command (args : Args) : outcome (option handler) :=
  find_matching_command_in commands_map args.

(** ** Module constants *)

Definition __doc__ : string :=
"Usage:
  peru sync [-fqv]
  peru build [-fqv] [<rules>...]
  peru reup [-qv] [<modules>...]
  peru override [list | add <module> <path> | delete <module>]
  peru copy [-fqv] <target> [<dest>]
  peru clean [-f]
  peru (help | --help | --version)

Commands:
  sync      apply imports to the working copy
  build     run build rules in the working copy
  reup      get updated module fields from remotes
  override  replace a remote module with a local copy
  copy      make a copy of the outputs of a build target
  clean     delete imports from the working copy

Options:
  -f --force    overwrite existing files
  -q --quiet    don't print anything
  -v --verbose  print all the things
  -h --help     show help
".

Definition __version__ : string := "peru 0.1".

(** The escape character that opens the two colour sequences of
    [print_red]. *)
Definition ESC : string := String (ascii_of_nat 27) "".
(** The line feed that [print] appends by default. *)
Definition LF : string := String (ascii_of_nat 10) "".
Definition red_on : string := ESC +:+ "[31m".
Definition red_off : string := ESC +:+ "[39m".

(** Iterating a dict yields its keys. *)
Definition dict_keys {V : Type} (d : gmap string V) : list string :=
  (map_to_list d).*1.

(** [sorted] on [str] keys: ascending, code point by code point, which on
    the bytes of a Rocq string is [String.le]. *)
Definition sorted (keys : list string) : list string :=
  merge_sort String.le keys.

(** ** The collaborators and the state of one invocation *)

(** Objects of the collaborating modules, opaque to this layer: the
    environment mapping, module objects, resolved build rules, trees of
    the cache, whatever else a runtime holds (local module, cache), and
    the outside world they act on. *)
Class Objects : Type := {
  Env : Type;
  Module : Type;
  Rules : Type;
  Tree : Type;
  Handle : Type;
  World : Type
}.

Section Peru.
Context {objects : Objects}.

(** Modelled from the spec: the Execution Context built by
    [Runtime(args, env)] (peru/runtime.py is not among the sources), with
    the attributes this module reads. [overrides] is the Override Table,
    a dict from module name to local path with unique keys; [force] is
    the force flag; the rest of the object (local module, cache) is
    opaque. *)
Record Runtime : Type := mkRuntime {
  overrides : gmap string string;
  force : value;
  handles : Handle
}.

(** Calls that leave this module. The receiver of [apply_imports] and
    [local_do_build] is [runtime.local_module], that of [export_tree] is
    [runtime.cache]; [apply_imports] takes its import set as an optional
    second argument. *)
Inductive call : Type :=
| Runtime_new (args : Args) (env : Env)
| apply_imports (rt : Runtime) (imports : option (gmap string string))
| get_rules (rt : Runtime) (names : value)
| local_do_build (rt : Runtime) (rules : Rules)
| get_all_modules (rt : Runtime)
| get_modules (rt : Runtime) (names : value)
| module_reup (m : Module) (rt : Runtime)
| mkdtemp (prefix : string)
| get_tree (rt : Runtime) (target : value)
| export_tree (rt : Runtime) (tree : Tree) (dest : value) (force_ : value).

Definition resp (c : call) : Type :=
  match c with
  | Runtime_new _ _ => Runtime
  | apply_imports _ _ => unit
  | get_rules _ _ => Rules
  | local_do_build _ _ => unit
  | get_all_modules _ => list Module
  | get_modules _ _ => list Module
  | module_reup _ _ => unit
  | mkdtemp _ => string
  | get_tree _ _ => Tree
  | export_tree _ _ _ _ => unit
  end.

(** What one invocation does, in order: calls into the collaborators
    with the exception they raised, if any, and output on [sys.stdout]
    ([sys.stdout.write(s)] and [print(v, end=e)]). *)
Inductive event : Type :=
| Called (c : call) (raised : option exn)
| Wrote (s : string)
| Printed (v : value) (end_ : string).

(** [self] is the [Main] object; its attributes are unset until [run]
    assigns them. *)
Record state : Type := mkState {
  world : World;
  isatty : bool;
  trace : list event;
  self_args : option Args;
  self_runtime : option Runtime
}.

Definition M (A : Type) : Type := state → outcome A * state.

#[export] Instance M_ret : MRet M := fun A a s => (Ok a, s).
#[export] Instance M_bind : MBind M := fun A B f m s =>
  match m s with
  | (Ok a, s') => f a s'
  | (Raise e, s') => (Raise e, s')
  end.

Definition raise {A : Type} (e : exn) : M A := fun s => (Raise e, s).

Definition lift {A : Type} (o : outcome A) : M A := fun s => (o, s).

Definition log (ev : event) (s : state) : state :=
  {| world := world s; isatty := isatty s; trace := trace s ++ [ev];
     self_args := self_args s; self_runtime := self_runtime s |}.

Definition raised_of {A : Type} (o : outcome A) : option exn :=
  match o with Ok _ => None | Raise e => Some e end.

(** The behaviour of the collaborators: each call answers or raises and
    may change the world. [get_override] and [set_override] are the two
    methods of the runtime on its Override Table: the first answers with
    a path or [None], the second with the runtime as updated or with an
    exception. [docopt] is the external parser called as
    [docopt.docopt(doc, argv, help=False)]: it answers with the argument
    dictionary or raises [DocoptExit]. [sys_argv] and [os_environ] are
    those of the process. *)
Class Collaborators : Type := {
  perform : ∀ c : call, World → outcome (resp c) * World;
  get_override : Runtime → string → option string;
  set_override : Runtime → value → value → outcome Runtime;
  docopt : string → list string → outcome Args;
  sys_argv : list string;
  os_environ : Env
}.
Context {collaborators : Collaborators}.

Definition invoke (c : call) : M (resp c) := fun s =>
  let '(r, w) := perform c (world s) in
  (r, log (Called c (raised_of r))
        {| world := w; isatty := isatty s; trace := trace s;
           self_args := self_args s; self_runtime := self_runtime s |}).

Definition stdout_write (text : string) : M unit := fun s =>
  (Ok tt, log (Wrote text) s).

Definition print (v : value) (end_ : string) : M unit := fun s =>
  (Ok tt, log (Printed v end_) s).

Definition stdout_isatty : M bool := fun s => (Ok (isatty s), s).

Definition get_args : M Args := fun s =>
  match self_args s with
  | Some a => (Ok a, s)
  | None => (Raise (AttributeError "args"), s)
  end.

Definition get_runtime : M Runtime := fun s =>
  match self_runtime s with
  | Some rt => (Ok rt, s)
  | None => (Raise (AttributeError "runtime"), s)
  end.

Definition set_args (a : Args) : M unit := fun s =>
  (Ok tt, {| world := world s; isatty := isatty s; trace := trace s;
             self_args := Some a; self_runtime := self_runtime s |}).

Definition set_runtime (rt : Runtime) : M unit := fun s =>
  (Ok tt, {| world := world s; isatty := isatty s; trace := trace s;
             self_args := self_args s; self_runtime := Some rt |}).

(** [self.args[name]] *)
Definition arg (name : string) : M value :=
  a ← get_args; lift (getitem a name).

(** [for x in xs: body(x)] *)
Fixpoint for_each {A : Type} (xs : list A) (body : A → M unit) : M unit :=
  match xs with
  | [] => mret tt
  | x :: rest => _ ← body x; for_each rest body
  end.

(** ** The handlers of [Main] *)

Definition do_sync : M unit :=
  rt ← get_runtime;
  invoke (apply_imports rt None).

Definition do_build : M unit :=
  rt ← get_runtime;
  names ← arg "<rules>";
  rules ← invoke (get_rules rt names);
  rt' ← get_runtime;
  invoke (local_do_build rt' rules).

Definition do_reup : M unit :=
  given ← arg "<modules>";
  modules ←
    (if negb (truthy given)
     then rt ← get_runtime; invoke (get_all_modules rt)
     else rt ← get_runtime;
          names ← arg "<modules>";
          invoke (get_modules rt names));
  for_each modules (fun module =>
    rt ← get_runtime; invoke (module_reup module rt)).

(** [str.format] on a module name and the result of [get_override]. *)
Definition format_override (module : string) (path : option string)
  : string :=
  module +:+ ": " +:+ default "None" path.

Definition do_override : M unit :=
  rt ← get_runtime;
  for_each (sorted (dict_keys (overrides rt))) (fun module =>
    rt' ← get_runtime;
    print (VStr (format_override module (get_override rt' module))) LF).

Definition do_override_add : M unit :=
  name ← arg "<module>";
  path ← arg "<path>";
  rt ← get_runtime;
  rt' ← lift (set_override rt name path);
  set_runtime rt'.

(** [del self.runtime.overrides[key]]: deleting a key the dict does not
    hold raises [KeyError]. *)
Definition do_override_delete : M unit :=
  key ← arg "<module>";
  rt ← get_runtime;
  match key with
  | VStr k =>
      match overrides rt !! k with
      | Some _ =>
          set_runtime {| overrides := delete k (overrides rt);
                         force := force rt; handles := handles rt |}
      | None => raise (KeyError key)
      end
  | _ => raise (KeyError key)
  end.

Definition do_copy : M unit :=
  given ← arg "<dest>";
  dest ←
    (if negb (truthy given)
     then d ← invoke (mkdtemp "peru_copy_"); mret (VStr d)
     else arg "<dest>");
  rt ← get_runtime;
  target ← arg "<target>";
  tree ← invoke (get_tree rt target);
  rt' ← get_runtime;
  _ ← invoke (export_tree rt' tree dest (force rt'));
  given' ← arg "<dest>";
  if negb (truthy given') then print dest LF else mret tt.

Definition do_clean : M unit :=
  rt ← get_runtime;
  invoke (apply_imports rt (Some ∅)).

(** [matching_command(self)] *)
Definition call_handler (h : handler) : M unit :=
  match h with
  | do_sync_h => do_sync
  | do_build_h => do_build
  | do_reup_h => do_reup
  | do_override_h => do_override
  | do_override_add_h => do_override_add
  | do_override_delete_h => do_override_delete
  | do_copy_h => do_copy
  | do_clean_h => do_clean
  end.

(** ** [Main.run], [print_red] and [main] *)

Definition run (argv : list string) (env : Env) : M unit :=
  parsed ← lift (docopt __doc__ argv);
  _ ← set_args parsed;
  a ← get_args;
  matching_command ← lift (find_matching_command a);
  match matching_command with
  | Some h =>
      a' ← get_args;
      rt ← invoke (Runtime_new a' env);
      _ ← set_runtime rt;
      call_handler h
  | None =>
      v ← arg "--version";
      if truthy v then print (VStr __version__) LF
      else print (VStr __doc__) ""
  end.

Definition print_red (text : string) : M unit :=
  tty ← stdout_isatty;
  _ ← (if tty : bool then stdout_write red_on else mret tt);
  _ ← print (VStr text) LF;
  tty' ← stdout_isatty;
  if tty' : bool then stdout_write red_off else mret tt.

(** [Main()]: a fresh object, no attribute set. *)
Definition new_Main : M unit := fun s =>
  (Ok tt, {| world := world s; isatty := isatty s; trace := trace s;
             self_args := None; self_runtime := None |}).

(** [try: body except PrintableError as e: handle(e.msg)] *)
Definition try_except_PrintableError {A : Type}
    (body : M A) (handle : string → M A) : M A := fun s =>
  match body s with
  | (Raise (PrintableError msg), s') => handle msg s'
  | r => r
  end.

Definition main (argv : option (list string)) (env : option Env) : M unit :=
  let argv := default (drop 1 sys_argv) argv in
  let env := default os_environ env in
  try_except_PrintableError
    (_ ← new_Main; run argv env)
    (fun msg =>
       _ ← (if truthy (VStr msg) then print_red msg else mret tt);
       raise (SystemExit 1)).

End Peru.

(** ** Vocabulary of the properties *)

(** A token is present when the dictionary maps it to a true value. *)
Definition present (args : Args) (token : string) : Prop :=
  ∃ v, args !! token = Some v ∧ truthy v = true.

Definition presentb (args : Args) (token : string) : bool :=
  match args !! token with
  | Some v => truthy v
  | None => false
  end.

(** A path all of whose tokens are present. *)
Definition candidate (args : Args) (cmds : Path) : Prop :=
  ∀ token, token ∈ cmds → present args token.

Definition candidateb (args : Args) (cmds : Path) : bool :=
  forallb (presentb args) cmds.

(** The dictionary has a key for every token of every registered path,
    as a dictionary made by docopt from the usage text has. *)
Definition covers {H : Type} (args : Args) (reg : list (Path * H)) : Prop :=
  ∀ cmds f token, (cmds, f) ∈ reg → token ∈ cmds → is_Some (args !! token).

(** The names of the usage text, each with the value docopt gives it when
    the command line does not mention it. *)
Definition docopt_defaults : list (string * value) :=
  [ ("sync", VBool false); ("build", VBool false); ("reup", VBool false);
    ("override", VBool false); ("list", VBool false); ("add", VBool false);
    ("delete", VBool false); ("copy", VBool false); ("clean", VBool false);
    ("help", VBool false); ("--help", VBool false);
    ("--version", VBool false); ("--force", VBool false);
    ("--quiet", VBool false); ("--verbose", VBool false);
    ("<rules>", VList []); ("<modules>", VList []); ("<module>", VNone);
    ("<path>", VNone); ("<target>", VNone); ("<dest>", VNone) ].

(** The dictionary of a command line that sets the given names. *)
Definition parsed (set : list (string * value)) : Args :=
  list_to_map (set ++ docopt_defaults).

(** Every name of the usage text is a key. *)
Definition has_usage_keys (args : Args) : Prop :=
  Forall (λ name, is_Some (args !! name)) docopt_defaults.*1.

#[global] Instance has_usage_keys_dec args : Decision (has_usage_keys args).
Proof. unfold has_usage_keys. apply _. Defined.

(** ** Sample command lines *)

(** A dictionary no command line yields: [add] and [delete] both set. *)
Definition args_add_and_delete : Args :=
  parsed [ ("override", VBool true); ("add", VBool true);
           ("delete", VBool true); ("<module>", VStr "m");
           ("<path>", VStr "p") ].

(** [peru override add m p] *)
Definition args_override_add : Args :=
  parsed [ ("override", VBool true); ("add", VBool true);
           ("<module>", VStr "m"); ("<path>", VStr "p") ].

(** Events of module refreshes that returned normally. *)
Definition reups_ok {objects : Objects} (rt : Runtime) (modules : list Module)
  : list event :=
  (λ m, Called (module_reup m rt) None) <$> modules.

(** The lines [name: path] of the given entries, as print events. *)
Definition override_lines {objects : Objects} (entries : list (string * string))
  : list event :=
  (λ e, Printed (VStr (e.1 +:+ ": " +:+ e.2)) LF) <$> entries.

(** The state after more events, in another world. *)
Definition after {objects : Objects} (s : state) (w : World)
    (events : list event) : state :=
  {| world := w; isatty := isatty s; trace := trace s ++ events;
     self_args := self_args s; self_runtime := self_runtime s |}.

(** ** A concrete setting to run the handlers in

    Modules and trees are names, the world is the list of the directories
    that exist. *)

Definition sample_objects : Objects :=
  {| Env := list (string * string); Module := string; Rules := list string;
     Tree := string; Handle := unit; World := list string |}.

Definition sample_runtime : @Runtime sample_objects :=
  @mkRuntime sample_objects
    (<["zlib" := "/src/zlib"]> (<["curl" := "../curl"]> ∅)) (VBool false) tt.

Fixpoint pad (n : nat) : string :=
  match n with
  | 0 => ""
  | S n' => String "x" (pad n')
  end.

Definition longest_name (names : list string) : nat :=
  foldr (λ name n, (String.length name) `max` n) 0 names.

(** A directory name that starts with [prefix] and is longer than every
    existing one. *)
Definition fresh_dir (prefix : string) (existing : list string) : string :=
  prefix +:+ pad (S (longest_name existing)).

(** Collaborators that always answer, except that the module named
    [bad] cannot be refreshed. *)
Definition sample_perform (c : @call sample_objects) (w : list string)
  : outcome (resp c) * list string :=
  match c return outcome (resp c) * list string with
  | Runtime_new _ _ => (Ok sample_runtime, w)
  | apply_imports _ _ => (Ok tt, w)
  | get_rules _ _ => (Ok [], w)
  | local_do_build _ _ => (Ok tt, w)
  | get_all_modules _ => (Ok ["curl"; "zlib"], w)
  | get_modules _ names =>
      (Ok match names with VList l => l | _ => [] end, w)
  | module_reup m _ =>
      if decide (m = "bad") then (Raise (PrintableError "no remote"), w)
      else (Ok tt, w)
  | mkdtemp prefix => (Ok (fresh_dir prefix w), fresh_dir prefix w :: w)
  | get_tree _ _ => (Ok "tree", w)
  | export_tree _ _ _ _ => (Ok tt, w)
  end.

(** A parser for a few command lines of the usage text. *)
Definition sample_docopt (doc : string) (argv : list string) : outcome Args :=
  match argv with
  | ["--version"] => Ok (parsed [("--version", VBool true)])
  | ["help"] => Ok (parsed [("help", VBool true)])
  | "reup" :: modules =>
      Ok (parsed [("reup", VBool true); ("<modules>", VList modules)])
  | ["override"] => Ok (parsed [("override", VBool true)])
  | ["override"; "delete"; name] =>
      Ok (parsed [("override", VBool true); ("delete", VBool true);
                  ("<module>", VStr name)])
  | ["copy"; target] =>
      Ok (parsed [("copy", VBool true); ("<target>", VStr target)])
  | ["copy"; target; dest] =>
      Ok (parsed [("copy", VBool true); ("<target>", VStr target);
                  ("<dest>", VStr dest)])
  | _ => Raise (DocoptExit doc)
  end.

Definition sample_env : @Env sample_objects := [].

(** A runtime that keeps the paths as they are given. *)
Definition sample_get_override (rt : @Runtime sample_objects) (name : string)
  : option string :=
  overrides rt !! name.

Definition sample_set_override (rt : @Runtime sample_objects)
    (name path : value) : outcome (@Runtime sample_objects) :=
  match name, path with
  | VStr n, VStr p =>
      Ok (@mkRuntime sample_objects (<[n := p]> (overrides rt)) (force rt)
            (handles rt))
  | _, _ => Raise (OtherError "not a string")
  end.

Definition sample_collaborators : @Collaborators sample_objects :=
  @Build_Collaborators sample_objects
    sample_perform sample_get_override sample_set_override sample_docopt
    ["peru"; "--version"] sample_env.

(** The start of an invocation: nothing done yet, no directory there. *)
Definition sample_start (tty : bool) : @state sample_objects :=
  @mkState sample_objects [] tty [] None None.

(** The state in which [run] calls a handler: [self.args] set, the
    runtime built. *)
Definition sample_dispatched (args : Args) : @state sample_objects :=
  @mkState sample_objects [] false [] (Some args) (Some sample_runtime).

(** [peru --version], [peru reup a bad c], [peru copy lib] and
    [peru override delete x] as parsed. *)
Definition args_version : Args := parsed [("--version", VBool true)].

Definition args_reup : Args :=
  parsed [("reup", VBool true); ("<modules>", VList ["a"; "bad"; "c"])].

Definition args_copy : Args :=
  parsed [("copy", VBool true); ("<target>", VStr "lib")].

Definition args_override_delete : Args :=
  parsed [ ("override", VBool true); ("delete", VBool true);
           ("<module>", VStr "x") ].

(** ** Vocabulary of the further properties *)

(** The names that open the usage lines with a command. *)
Definition top_level : list string :=
  ["sync"; "build"; "reup"; "override"; "copy"; "clean"].

(** The dictionary of a command line of the usage text: one command name
    is set and no other. *)
Definition only_command (args : Args) (name : string) : Prop :=
  present args name ∧
  ∀ other, other ∈ top_level → other ≠ name → ¬ present args other.

(** An event that is a call, not output. *)
Definition is_call {objects : Objects} (ev : event) : Prop :=
  match ev with
  | Called _ _ => True
  | Wrote _ | Printed _ _ => False
  end.

(** From [s] to [s'] nothing was written to standard output: the trace
    grew by calls only, and [self.args] and the kind of stream are the
    same. *)
Definition calls_only {objects : Objects} (s s' : state) : Prop :=
  ∃ events, trace s' = trace s ++ events ∧ Forall is_call events ∧
            isatty s' = isatty s ∧ self_args s' = self_args s.

(** A computation that writes nothing, however it ends. *)
Definition silent {objects : Objects} {A : Type} (m : M A) : Prop :=
  ∀ s o s', m s = (o, s') → calls_only s s'.

(** [peru override list] as parsed; the empty dictionary; a dictionary
    whose [<dest>] key is missing. *)
Definition args_override_list : Args :=
  parsed [("override", VBool true); ("list", VBool true)].

Definition args_build : Args :=
  parsed [("build", VBool true); ("<rules>", VList ["all"])].

Definition args_override_delete_zlib : Args :=
  parsed [ ("override", VBool true); ("delete", VBool true);
           ("<module>", VStr "zlib") ].

(** A computation that has written nothing when it ends with an
    exception. *)
Definition fails_silently {objects : Objects} {A : Type} (m : M A) : Prop :=
  ∀ s e s', m s = (Raise e, s') → calls_only s s'.

(** [peru override add m p] with an extra [--force] set. *)
Definition args_override_add_forced : Args :=
  parsed [ ("override", VBool true); ("add", VBool true);
           ("<module>", VStr "m"); ("<path>", VStr "p");
           ("--force", VBool true) ].

(** Collaborators as before, except that no target can be resolved. *)
Definition sample_perform_no_tree (c : @call sample_objects) (w : list string)
  : outcome (resp c) * list string :=
  match c return outcome (resp c) * list string with
  | get_tree _ _ => (Raise (PrintableError "no such target"), w)
  | c' => sample_perform c' w
  end.

Definition sample_collaborators_no_tree : @Collaborators sample_objects :=
  @Build_Collaborators sample_objects
    sample_perform_no_tree sample_get_override sample_set_override
    sample_docopt ["peru"; "copy"; "lib"] sample_env.

(** A dictionary docopt makes from the usage text: every name of the usage
    text is a key, and of [add] and [delete], which are alternatives of the
    [override] line, at most one is set. *)
Definition usage_dictionary (args : Args) : Prop :=
  has_usage_keys args ∧ ¬ (present args "add" ∧ present args "delete").

(** [peru copy lib ''] as parsed: a destination is given, the empty
    string. *)
Definition args_copy_empty_dest : Args :=
  parsed [ ("copy", VBool true); ("<target>", VStr "lib");
           ("<dest>", VStr "") ].

(** * Properties *)

(** Closed decidable facts are settled by evaluation. *)
Ltac by_evaluation := apply (bool_decide_unpack _); by vm_compute.

(** ** The presence test *)

Lemma presentb_true args token : presentb args token = true ↔ present args token.
Proof.
  unfold presentb, present. destruct (args !! token) as [v|]; split.
  - intros Hv. by exists v.
  - by intros (w & [= <-] & Hw).
  - done.
  - by intros (w & ? & _).
Qed.

Lemma candidateb_true args cmds : candidateb args cmds = true ↔ candidate args cmds.
Proof.
  unfold candidateb, candidate. rewrite forallb_forall. split.
  - intros Hall t Ht. apply presentb_true, Hall. by apply list_elem_of_In.
  - intros Hall t Ht. apply presentb_true, Hall. by apply list_elem_of_In.
Qed.

Lemma all_args_Ok args cmds b : all_args args cmds = Ok b → b = candidateb args cmds.
Proof.
  induction cmds as [|c cs IH]; simpl.
  - by intros [= <-].
  - unfold getitem, presentb. destruct (args !! c) as [v|]; simpl; [|done].
    destruct (truthy v); simpl; [exact IH | by intros [= <-]].
Qed.

Lemma all_args_covered args cmds :
  (∀ token, token ∈ cmds → is_Some (args !! token)) →
  all_args args cmds = Ok (candidateb args cmds).
Proof.
  induction cmds as [|c cs IH]; intros Hkeys; simpl; [done|].
  destruct (Hkeys c) as [v Hv]; [left|].
  unfold getitem, presentb. rewrite Hv. simpl.
  destruct (truthy v); simpl; [|done].
  apply IH. intros t Ht. apply Hkeys. by right.
Qed.

Lemma all_args_true args cmds : all_args args cmds = Ok true ↔ candidate args cmds.
Proof.
  rewrite <- candidateb_true. split.
  - intros Hok. symmetry. by apply all_args_Ok.
  - intros Hc. rewrite all_args_covered; [by rewrite Hc|].
    intros t Ht. apply candidateb_true in Hc. destruct (Hc t Ht) as (v & -> & _). by eexists.
Qed.

Section RegistryFacts.
Context {H : Type}.
Implicit Types (reg ms : list (Path * H)) (args : Args) (m : Path * H).

Lemma matches_of_Ok args reg ms :
  matches_of args reg = Ok ms →
  ms = filter (λ m, candidateb args m.1 = true) reg.
Proof.
  revert ms. induction reg as [|[cmds f] reg IH]; intros ms; simpl.
  - by intros [= <-].
  - destruct (all_args args cmds) as [b|e] eqn:Hb; simpl; [|done].
    destruct (matches_of args reg) as [ms'|e] eqn:Hms; simpl; [|done].
    intros [= <-]. apply all_args_Ok in Hb. rewrite (IH ms' eq_refl).
    rewrite filter_cons. simpl. rewrite <- Hb.
    destruct b; by case_decide.
Qed.

Lemma matches_of_covered args reg :
  covers args reg →
  matches_of args reg = Ok (filter (λ m, candidateb args m.1 = true) reg).
Proof.
  induction reg as [|[cmds f] reg IH]; intros Hcov; simpl; [done|].
  rewrite all_args_covered; [|intros t Ht; eapply Hcov; [left|done]].
  simpl. rewrite IH; [|intros c g t Hc Ht; eapply Hcov; [right; exact Hc|done]].
  simpl. rewrite filter_cons. simpl.
  destruct (candidateb args cmds); by case_decide.
Qed.

Lemma longest_from_app m ms1 ms2 :
  longest_from m (ms1 ++ ms2) = longest_from (longest_from m ms1) ms2.
Proof.
  revert m. induction ms1 as [|[c g] ms1 IH]; intros m; simpl; [done|].
  case_decide; apply IH.
Qed.

Lemma longest_from_elem m ms : longest_from m ms ∈ m :: ms.
Proof.
  revert m. induction ms as [|[c g] ms IH]; intros m; simpl; [left|].
  case_decide.
  - right. apply IH.
  - specialize (IH m). apply elem_of_cons in IH as [->|IH]; [left | right; by right].
Qed.

Lemma longest_from_ge m ms :
  length m.1 ≤ length (longest_from m ms).1.
Proof.
  revert m. induction ms as [|[c g] ms IH]; intros m; simpl; [done|].
  case_decide; [|apply IH]. specialize (IH (c, g)). simpl in IH. lia.
Qed.

Lemma longest_from_max m ms m' :
  m' ∈ m :: ms → length m'.1 ≤ length (longest_from m ms).1.
Proof.
  revert m. induction ms as [|[c g] ms IH]; intros m; simpl.
  - intros ->%list_elem_of_singleton. done.
  - intros Hin. case_decide as Hlt.
    + apply elem_of_cons in Hin as [->|Hin].
      * pose proof (longest_from_ge (c, g) ms). simpl in *. lia.
      * by apply IH.
    + apply elem_of_cons in Hin as [->|Hin]; [apply longest_from_ge|].
      apply elem_of_cons in Hin as [->|Hin].
      * pose proof (longest_from_ge m ms). simpl in *. lia.
      * apply IH. by right.
Qed.

Lemma longest_from_keep m ms :
  (∀ m', m' ∈ ms → length m'.1 ≤ length m.1) → longest_from m ms = m.
Proof.
  induction ms as [|[c g] ms IH]; intros Hle; simpl; [done|].
  case_decide as Hlt.
  - assert (length c ≤ length m.1) by (apply (Hle (c, g)); left). lia.
  - apply IH. intros m' Hm'. apply Hle. by right.
Qed.

Lemma longest_match_first_longest ms1 m ms2 :
  (∀ m', m' ∈ ms1 → length m'.1 < length m.1) →
  (∀ m', m' ∈ ms2 → length m'.1 ≤ length m.1) →
  longest_match (ms1 ++ m :: ms2) = Some m.
Proof.
  intros Hbefore Hafter. destruct ms1 as [|m0 ms1]; simpl.
  - by rewrite longest_from_keep.
  - rewrite longest_from_app. simpl. destruct m as [c g].
    assert (length (longest_from m0 ms1).1 < length c) as Hlt.
    { apply (Hbefore (longest_from m0 ms1)), longest_from_elem. }
    case_decide; [|done]. by rewrite longest_from_keep.
Qed.

End RegistryFacts.

Lemma commands_map_tokens_in_usage :
  Forall (λ m : Path * handler, Forall (λ token, token ∈ docopt_defaults.*1) m.1)
    commands_map.
Proof. by_evaluation. Qed.

Lemma has_usage_keys_covers args : has_usage_keys args → covers args commands_map.
Proof.
  intros Hkeys cmds f token Hin Htok.
  unfold has_usage_keys in Hkeys. rewrite Forall_forall in Hkeys. apply Hkeys.
  pose proof commands_map_tokens_in_usage as Hall.
  rewrite Forall_forall in Hall. specialize (Hall _ Hin).
  rewrite Forall_forall in Hall. by apply Hall.
Qed.

Lemma commands_map_items :
  commands_map =
  [ (["sync"], do_sync_h); (["build"], do_build_h); (["reup"], do_reup_h);
    (["override"], do_override_h);
    (["override"; "add"], do_override_add_h);
    (["override"; "delete"], do_override_delete_h);
    (["copy"], do_copy_h); (["clean"], do_clean_h) ].
Proof. by vm_compute. Qed.

Lemma strict_subset_shorter (A B : Path) :
  NoDup A → A ⊆ B → (∃ token, token ∈ B ∧ token ∉ A) → length A < length B.
Proof.
  intros Hnd Hsub (t & HtB & HtA).
  assert (t :: A ⊆+ B) as Hle.
  { apply NoDup_submseteq; [by constructor|].
    intros x [->|Hx]%elem_of_cons; [done | by apply Hsub]. }
  apply submseteq_length in Hle. simpl in Hle. lia.
Qed.

(** ** Longest-match selection *)

(** Longest match in any registry. For registered paths [A] and [B], [A]
    without repeated token and its tokens a strict subset of those of [B],
    and a dictionary that has every registered token as a key and maps
    every token of [B] to a true value, the handler returned is that of a
    candidate path of greatest length; that path is at least as long as
    [B], so it is not [A]; and it is [B], with [B]'s handler, when every
    candidate before [B] in the registry is shorter than [B] and none after
    it is longer. *)
Lemma longest_candidate_wins {H : Type} (reg : list (Path * H))
    (args : Args) (A B : Path) (fA fB : H) :
  covers args reg →
  (A, fA) ∈ reg → (B, fB) ∈ reg →
  NoDup A → A ⊆ B → (∃ token, token ∈ B ∧ token ∉ A) →
  candidate args B →
  ∃ (C : Path) (f : H),
    find_matching_command_in reg args = Ok (Some f) ∧
    (C, f) ∈ reg ∧ candidate args C ∧
    (∀ C' f', (C', f') ∈ reg → candidate args C' → length C' ≤ length C) ∧
    length B ≤ length C ∧ C ≠ A ∧
    (∀ before after,
       reg = before ++ (B, fB) :: after →
       (∀ m, m ∈ before → candidate args m.1 → length m.1 < length B) →
       (∀ m, m ∈ after → candidate args m.1 → length m.1 ≤ length B) →
       C = B ∧ f = fB).
Proof.
  intros Hcov HA HB Hnd Hsub Hstrict HcB.
  pose proof (strict_subset_shorter A B Hnd Hsub Hstrict) as Hlt.
  unfold find_matching_command_in. rewrite (matches_of_covered _ _ Hcov). simpl.
  set (P := λ m : Path * H, candidateb args m.1 = true).
  assert ((B, fB) ∈ filter P reg) as HBin.
  { apply list_elem_of_filter. split; [by apply candidateb_true | done]. }
  destruct (filter P reg) as [|m0 ms] eqn:Hms; [by apply elem_of_nil in HBin|].
  simpl. destruct (longest_from m0 ms) as [C f] eqn:Hsel.
  exists C, f. simpl.
  assert ((C, f) ∈ filter P reg) as HCin.
  { rewrite Hms, <- Hsel. apply longest_from_elem. }
  apply list_elem_of_filter in HCin as [HCc HCreg].
  assert (∀ m, m ∈ filter P reg → length m.1 ≤ length C) as Hmax.
  { intros m Hm. rewrite Hms in Hm.
    pose proof (longest_from_max m0 ms m Hm) as Hle. by rewrite Hsel in Hle. }
  assert (length B ≤ length C) as HBC.
  { apply (Hmax (B, fB)). by rewrite Hms. }
  split_and!; [done | done | by apply candidateb_true | | done | | ].
  - intros C' f' HC' Hc'. apply (Hmax (C', f')).
    apply list_elem_of_filter. split; [by apply candidateb_true | done].
  - intros ->. lia.
  - intros before after Hreg Hbefore Hafter.
    assert (longest_match (filter P reg) = Some (B, fB)) as Hfirst.
    { rewrite Hreg, filter_app, filter_cons_True by (by apply candidateb_true).
      apply longest_match_first_longest.
      - intros m [Hm Hin]%list_elem_of_filter. apply Hbefore; [done|].
        by apply candidateb_true.
      - intros m [Hm Hin]%list_elem_of_filter. apply Hafter; [done|].
        by apply candidateb_true. }
    rewrite Hms in Hfirst. simpl in Hfirst. rewrite Hsel in Hfirst.
    by injection Hfirst as -> ->.
Qed.

Lemma nested_pairs_of_commands_map :
  Forall (λ a : Path * handler,
    Forall (λ b : Path * handler,
      a.1 ⊆ b.1 → ¬ b.1 ⊆ a.1 →
      a = (["override"], do_override_h) ∧
      (b = (["override"; "add"], do_override_add_h) ∨
       b = (["override"; "delete"], do_override_delete_h)))
      commands_map)
    commands_map.
Proof. by_evaluation. Qed.

Lemma find_by_filter args :
  has_usage_keys args →
  find_matching_command args =
  Ok (snd <$> longest_match
                (filter (λ m : Path * handler, candidateb args m.1 = true)
                   commands_map)).
Proof.
  intros Hkeys. unfold find_matching_command, find_matching_command_in.
  by rewrite matches_of_covered by (by apply has_usage_keys_covers).
Qed.

(** C1. In the registry of [Main], for registered paths [A] and [B] with
    the tokens of [A] a strict subset of those of [B], and for every
    dictionary docopt makes from the usage text in which every token of
    [B] is mapped to a true value, [find_matching_command] returns the
    handler of [B], which is not the handler of [A]. *)
Theorem C1_nested_paths_dispatch_to_the_longer
    (args : Args) (A B : Path) (fA fB : handler) :
  usage_dictionary args →
  (A, fA) ∈ commands_map → (B, fB) ∈ commands_map →
  A ⊆ B → ¬ B ⊆ A →
  candidate args B →
  find_matching_command args = Ok (Some fB) ∧ fB ≠ fA.
Proof.
  intros [Hkeys Hexclusive] HA HB Hsub Hstrict Hcand.
  pose proof nested_pairs_of_commands_map as Hpairs.
  rewrite Forall_forall in Hpairs. specialize (Hpairs _ HA).
  rewrite Forall_forall in Hpairs.
  destruct (Hpairs _ HB Hsub Hstrict) as [HAeq HBeq].
  injection HAeq as -> ->.
  assert (presentb args "override" = true) as Hoverride.
  { apply presentb_true, Hcand.
    destruct HBeq as [[= -> _]|[= -> _]]; left. }
  rewrite (find_by_filter args Hkeys), commands_map_items.
  unfold candidateb. rewrite !filter_cons, filter_nil. simpl.
  rewrite Hoverride.
  destruct HBeq as [[= -> ->]|[= -> ->]].
  - assert (presentb args "add" = true) as ->.
    { apply presentb_true, Hcand. right. left. }
    assert (presentb args "delete" = false) as ->.
    { apply not_true_is_false. intros Hdelete. apply Hexclusive.
      split; [apply Hcand; right; left | by apply presentb_true]. }
    split; [|done].
    destruct (presentb args "sync"), (presentb args "build"),
      (presentb args "reup"), (presentb args "copy"), (presentb args "clean");
      simpl; repeat (case_decide; try done); reflexivity.
  - assert (presentb args "delete" = true) as ->.
    { apply presentb_true, Hcand. right. left. }
    assert (presentb args "add" = false) as ->.
    { apply not_true_is_false. intros Hadd. apply Hexclusive.
      split; [by apply presentb_true | apply Hcand; right; left]. }
    split; [|done].
    destruct (presentb args "sync"), (presentb args "build"),
      (presentb args "reup"), (presentb args "copy"), (presentb args "clean");
      simpl; repeat (case_decide; try done); reflexivity.
Qed.

(** C3. In a dictionary that has every registered token as a key, a
    registered path passes the test of the comprehension, and is among the
    matches, exactly when every one of its tokens is mapped to a true
    value; a token mapped to [False], to the empty string or to the empty
    list keeps its path out of the matches. *)
Theorem C3_candidate_iff_all_tokens_truthy {H : Type}
    (reg : list (Path * H)) (args : Args) (cmds : Path) (f : H) :
  covers args reg → (cmds, f) ∈ reg →
  (all_args args cmds = Ok true ↔
     ∀ token, token ∈ cmds → ∃ v, args !! token = Some v ∧ truthy v = true) ∧
  ∃ ms, matches_of args reg = Ok ms ∧
    ((cmds, f) ∈ ms ↔
       ∀ token, token ∈ cmds → ∃ v, args !! token = Some v ∧ truthy v = true) ∧
    (∀ token v, token ∈ cmds → args !! token = Some v →
       v = VBool false ∨ v = VStr "" ∨ v = VList [] →
       all_args args cmds = Ok false ∧ (cmds, f) ∉ ms).
Proof.
  intros Hcov Hreg. split; [apply all_args_true|].
  eexists. split; [by apply matches_of_covered|].
  assert ((cmds, f) ∈ filter (λ m : Path * H, candidateb args m.1 = true) reg
          ↔ candidate args cmds) as Hiff.
  { rewrite list_elem_of_filter. simpl. rewrite candidateb_true. tauto. }
  split; [exact Hiff|].
  intros token v Htok Hv Hfalse.
  assert (¬ candidate args cmds) as Hnot.
  { intros Hc. destruct (Hc token Htok) as (w & Hw & Htrue).
    rewrite Hv in Hw. injection Hw as <-.
    by destruct Hfalse as [->|[->| ->]]. }
  split; [|by rewrite Hiff].
  rewrite all_args_covered by (intros t Ht; by eapply Hcov).
  f_equal. apply not_true_is_false. by rewrite candidateb_true.
Qed.

Lemma no_candidate_no_match args :
  has_usage_keys args →
  (∀ cmds f, (cmds, f) ∈ commands_map → ¬ candidate args cmds) →
  find_matching_command args = Ok None.
Proof.
  intros Hkeys Hnone. unfold find_matching_command, find_matching_command_in.
  rewrite matches_of_covered by (by apply has_usage_keys_covers). simpl.
  replace (filter _ commands_map) with (@nil (Path * handler)); [done|].
  symmetry. apply elem_of_nil_inv. intros [cmds f] [Hc Hin]%list_elem_of_filter.
  apply (Hnone cmds f Hin). by apply candidateb_true.
Qed.

(** ** The handlers *)

Section Handlers.
Context {objects : Objects} {collaborators : Collaborators}.
Implicit Types (s : state) (rt : Runtime) (args : Args) (w : World).

Lemma bind_Ok {A B : Type} (m : M A) (f : A → M B) s a s' :
  m s = (Ok a, s') → (m ≫= f) s = f a s'.
Proof. intros Hm. unfold mbind, M_bind. by rewrite Hm. Qed.

Lemma bind_Raise {A B : Type} (m : M A) (f : A → M B) s e s' :
  m s = (Raise e, s') → (m ≫= f) s = (Raise e, s').
Proof. intros Hm. unfold mbind, M_bind. by rewrite Hm. Qed.

Lemma arg_lookup s args name v :
  self_args s = Some args → args !! name = Some v → arg name s = (Ok v, s).
Proof.
  intros Ha Hv. unfold arg, get_args, lift, getitem, mbind, M_bind.
  by rewrite Ha, Hv.
Qed.

Lemma get_runtime_Some s rt :
  self_runtime s = Some rt → get_runtime s = (Ok rt, s).
Proof. intros Hr. unfold get_runtime. by rewrite Hr. Qed.

(** One step of a handler that reads [self.runtime] or [self.args[..]]. *)
Ltac read_runtime := erewrite bind_Ok by (by apply get_runtime_Some).
Ltac read_arg := erewrite bind_Ok by (by eapply arg_lookup).
Ltac read_runtime_in H :=
  erewrite bind_Ok in H by (by apply get_runtime_Some).
Ltac read_arg_in H := erewrite bind_Ok in H by (by eapply arg_lookup).

Lemma after_nil s : after s (world s) [] = s.
Proof. destruct s. unfold after. simpl. by rewrite app_nil_r. Qed.

Lemma after_after s w1 evs1 w2 evs2 :
  after (after s w1 evs1) w2 evs2 = after s w2 (evs1 ++ evs2).
Proof. unfold after. simpl. by rewrite app_assoc. Qed.

Lemma invoke_eq (c : call) s :
  invoke c s =
  (let '(r, w) := perform c (world s) in
   (r, after s w [Called c (raised_of r)])).
Proof. unfold invoke. by destruct (perform c (world s)). Qed.

Lemma print_eq v end_ s :
  print v end_ s = (Ok tt, after s (world s) [Printed v end_]).
Proof. by destruct s. Qed.

Lemma for_each_print (line : Runtime → string → value) rt keys s :
  self_runtime s = Some rt →
  for_each keys (λ key, rt' ← get_runtime; print (line rt' key) LF) s =
  (Ok tt, after s (world s) ((λ key, Printed (line rt key) LF) <$> keys)).
Proof.
  revert s. induction keys as [|key keys IH]; intros s Hrt; simpl.
  - by rewrite after_nil.
  - erewrite bind_Ok; [|erewrite bind_Ok; [apply print_eq|by apply get_runtime_Some]].
    rewrite IH by done. by rewrite after_after.
Qed.

Lemma for_each_reup rt modules s :
  self_runtime s = Some rt →
  (∃ w, for_each modules
          (λ module, rt' ← get_runtime; invoke (module_reup module rt')) s =
        (Ok tt, after s w (reups_ok rt modules))) ∨
  (∃ pre m post e w,
     modules = pre ++ m :: post ∧
     for_each modules
       (λ module, rt' ← get_runtime; invoke (module_reup module rt')) s =
     (Raise e,
      after s w (reups_ok rt pre ++ [Called (module_reup m rt) (Some e)]))).
Proof.
  revert s. induction modules as [|m modules IH]; intros s Hrt; simpl.
  - left. exists (world s). by rewrite after_nil.
  - assert ((rt' ← get_runtime; invoke (module_reup m rt')) s =
            invoke (module_reup m rt) s) as Hstep.
    { erewrite bind_Ok; [done | by apply get_runtime_Some]. }
    rewrite invoke_eq in Hstep.
    destruct (perform (module_reup m rt) (world s)) as [[[]|e] w1] eqn:Hp.
    + erewrite bind_Ok by exact Hstep. simpl.
      destruct (IH (after s w1 [Called (module_reup m rt) None]) Hrt)
        as [[w Hok]|(pre & m' & post & e & w & -> & Hfail)].
      * left. exists w. by rewrite Hok, after_after.
      * right. exists (m :: pre), m', post, e, w. split; [done|].
        by rewrite Hfail, after_after.
    + right. exists [], m, modules, e, w1. split; [done|].
      by erewrite bind_Raise by exact Hstep.
Qed.

(** C4. [do_reup] asks the resolver for all modules when the list given
    on the command line is empty and for the named modules, passing the
    list as given, otherwise. It then refreshes the modules it got one
    after the other, in the order received, each once: either all of them
    return and the handler returns, or the first one that raises ends the
    handler with that exception and no later module is touched. *)
Theorem C4_reup_in_order_until_first_failure args rt given s :
  self_args s = Some args → self_runtime s = Some rt →
  args !! "<modules>" = Some given →
  let c := if truthy given then get_modules rt given else get_all_modules rt in
  match (if truthy given then perform (get_modules rt given) (world s)
         else perform (get_all_modules rt) (world s)) with
  | (Raise e, w) => do_reup s = (Raise e, after s w [Called c (Some e)])
  | (Ok modules, w) =>
      (∃ w', do_reup s =
             (Ok tt, after s w' (Called c None :: reups_ok rt modules))) ∨
      (∃ pre m post e w',
         modules = pre ++ m :: post ∧
         do_reup s =
         (Raise e,
          after s w' (Called c None :: reups_ok rt pre ++
                        [Called (module_reup m rt) (Some e)])))
  end.
Proof.
  intros Ha Hrt Hgiven. unfold do_reup.
  read_arg.
  destruct (truthy given) eqn:Htruthy; simpl.
  - destruct (perform (get_modules rt given) (world s)) as [[modules|e] w] eqn:Hp.
    + assert ((rt0 ← get_runtime; names ← arg "<modules>";
               invoke (get_modules rt0 names)) s =
              (Ok modules, after s w [Called (get_modules rt given) None]))
        as Hget.
      { read_runtime.
        read_arg.
        by rewrite invoke_eq, Hp. }
      erewrite bind_Ok by exact Hget.
      destruct (for_each_reup rt modules
                  (after s w [Called (get_modules rt given) None]) Hrt)
        as [[w' Hok]|(pre & m & post & e & w' & -> & Hfail)].
      * left. exists w'. by rewrite Hok, after_after.
      * right. exists pre, m, post, e, w'. split; [done|].
        by rewrite Hfail, after_after.
    + erewrite bind_Raise; [done|].
      read_runtime.
      read_arg.
      by rewrite invoke_eq, Hp.
  - destruct (perform (get_all_modules rt) (world s)) as [[modules|e] w] eqn:Hp.
    + assert ((rt0 ← get_runtime; invoke (get_all_modules rt0)) s =
              (Ok modules, after s w [Called (get_all_modules rt) None]))
        as Hget.
      { read_runtime.
        by rewrite invoke_eq, Hp. }
      erewrite bind_Ok by exact Hget.
      destruct (for_each_reup rt modules
                  (after s w [Called (get_all_modules rt) None]) Hrt)
        as [[w' Hok]|(pre & m & post & e & w' & -> & Hfail)].
      * left. exists w'. by rewrite Hok, after_after.
      * right. exists pre, m, post, e, w'. split; [done|].
        by rewrite Hfail, after_after.
    + erewrite bind_Raise; [done|].
      read_runtime.
      by rewrite invoke_eq, Hp.
Qed.

(** C8. [do_sync] and [do_clean] each make one call, the same
    [apply_imports] of the local module of the runtime: [do_clean] with
    the empty dict as explicit import set, [do_sync] with no import set
    given. The result of that call is the result of the handler. *)
Theorem C8_clean_and_sync_share_apply_imports rt s :
  self_runtime s = Some rt →
  do_sync s =
    (let '(r, w) := perform (apply_imports rt None) (world s) in
     (r, after s w [Called (apply_imports rt None) (raised_of r)])) ∧
  do_clean s =
    (let '(r, w) := perform (apply_imports rt (Some ∅)) (world s) in
     (r, after s w [Called (apply_imports rt (Some ∅)) (raised_of r)])).
Proof.
  intros Hrt. unfold do_sync, do_clean. split.
  - read_runtime. by rewrite invoke_eq.
  - read_runtime. by rewrite invoke_eq.
Qed.

Lemma entries_of_keys (d : gmap string string) :
  (λ key, (key, default "None" (d !! key))) <$> dict_keys d = map_to_list d.
Proof.
  unfold dict_keys. rewrite <- list_fmap_compose.
  rewrite <- (list_fmap_id (map_to_list d)) at 2.
  apply Forall_fmap_ext, Forall_forall. intros [key path] Hin. simpl.
  apply elem_of_map_to_list in Hin. by rewrite Hin.
Qed.

Lemma keys_of_entries (d : gmap string string) (keys : list string) :
  ((λ key, (key, default "None" (d !! key))) <$> keys).*1 = keys.
Proof. induction keys as [|key keys IH]; csimpl; [done | by f_equal]. Qed.

(** C9. Whatever the Override Table holds, [do_override] prints one line
    for each of its names, the names in ascending order, each line made of
    the name, a colon and a space, and what [get_override] answers for the
    name, and it does nothing else. When [get_override] answers with the
    path the table holds, these are the lines [name: path] of the entries
    of the table. *)
Theorem C9_override_prints_sorted_entries rt s :
  self_runtime s = Some rt →
  ∃ names : list string,
    names ≡ₚ dict_keys (overrides rt) ∧
    StronglySorted String.le names ∧
    do_override s =
      (Ok tt,
       after s (world s)
         ((λ name,
             Printed (VStr (name +:+ ": " +:+
                            default "None" (get_override rt name))) LF)
            <$> names)) ∧
    ((∀ name, get_override rt name = overrides rt !! name) →
     ∃ entries : list (string * string),
       entries ≡ₚ map_to_list (overrides rt) ∧
       entries.*1 = names ∧
       do_override s = (Ok tt, after s (world s) (override_lines entries))).
Proof.
  intros Hrt.
  assert (do_override s =
          (Ok tt,
           after s (world s)
             ((λ name,
                 Printed (VStr (name +:+ ": " +:+
                                default "None" (get_override rt name))) LF)
                <$> sorted (dict_keys (overrides rt))))) as Hrun.
  { unfold do_override. read_runtime.
    by rewrite (for_each_print
                  (λ rt' key, VStr (format_override key (get_override rt' key)))
                  rt). }
  exists (sorted (dict_keys (overrides rt))). split_and!.
  - apply merge_sort_Permutation.
  - apply StronglySorted_merge_sort; apply _.
  - exact Hrun.
  - intros Hget.
    exists ((λ key, (key, default "None" (overrides rt !! key)))
              <$> sorted (dict_keys (overrides rt))).
    split_and!.
    + unfold sorted. rewrite merge_sort_Permutation.
      by rewrite entries_of_keys.
    + apply keys_of_entries.
    + rewrite Hrun. unfold override_lines. rewrite <- list_fmap_compose.
      do 2 f_equal. apply list_fmap_ext. intros i name _. simpl.
      by rewrite Hget.
Qed.

(** C5. When [override delete X] is dispatched and the runtime is built
    with an Override Table that has no entry for [X], [main] ends with the
    [KeyError] of the deletion: the exception is not turned into exit code
    1, nothing is printed, and the table is left as it was. *)
Theorem C5_override_delete_missing_key_propagates argv env args X rt w s :
  docopt __doc__ argv = Ok args →
  find_matching_command args = Ok (Some do_override_delete_h) →
  args !! "<module>" = Some (VStr X) →
  perform (Runtime_new args env) (world s) = (Ok rt, w) →
  overrides rt !! X = None →
  main (Some argv) (Some env) s =
    (Raise (KeyError (VStr X)),
     {| world := w; isatty := isatty s;
        trace := trace s ++ [Called (Runtime_new args env) None];
        self_args := Some args; self_runtime := Some rt |}).
Proof.
  intros Hdoc Hfind Hmod Hnew Hmissing.
  unfold main, try_except_PrintableError, new_Main, run, set_args, get_args,
    set_runtime, lift, invoke, mbind, M_bind. simpl.
  rewrite Hdoc. simpl. rewrite Hfind. simpl. rewrite Hnew. simpl.
  unfold do_override_delete, arg, get_args, get_runtime, lift, getitem, raise,
    mbind, M_bind. simpl.
  rewrite Hmod. simpl. by rewrite Hmissing.
Qed.


Lemma bind_inv_Ok {A B : Type} (m : M A) (f : A → M B) s b s' :
  (m ≫= f) s = (Ok b, s') → ∃ a s1, m s = (Ok a, s1) ∧ f a s1 = (Ok b, s').
Proof.
  unfold mbind, M_bind. destruct (m s) as [[a|e] s1]; [eauto | done].
Qed.

Lemma invoke_inv_Ok (c : call) s (a : resp c) s1 :
  invoke c s = (Ok a, s1) →
  ∃ w, perform c (world s) = (Ok a, w) ∧ s1 = after s w [Called c None].
Proof.
  rewrite invoke_eq. destruct (perform c (world s)) as [[a'|e] w]; [|done].
  intros [= -> <-]. by exists w.
Qed.

(** C7. A [do_copy] that returns: when [<dest>] holds a true value, a
    string that is not empty, it resolves the target, exports the tree to
    that destination and prints nothing; when [<dest>] holds [None] or the
    empty string, or any other false value, it first makes a temporary
    directory with [tempfile.mkdtemp], exports the tree to it, and prints
    the path of the directory, followed by a line feed, as its only
    output. That directory did not exist before and exists afterwards
    whenever [mkdtemp] keeps its promise to make a new directory. *)
Theorem C7_copy_destination_and_output args rt given s s' :
  self_args s = Some args → self_runtime s = Some rt →
  args !! "<dest>" = Some given →
  do_copy s = (Ok tt, s') →
  ∃ target tree,
    args !! "<target>" = Some target ∧
    if truthy given then
      trace s' = trace s ++
        [ Called (get_tree rt target) None;
          Called (export_tree rt tree given (force rt)) None ]
    else
      ∃ d w1,
        perform (mkdtemp "peru_copy_") (world s) = (Ok d, w1) ∧
        trace s' = trace s ++
          [ Called (mkdtemp "peru_copy_") None;
            Called (get_tree rt target) None;
            Called (export_tree rt tree (VStr d) (force rt)) None;
            Printed (VStr d) LF ] ∧
        ∀ dir_exists : World → string → Prop,
          (∀ prefix w d' w', perform (mkdtemp prefix) w = (Ok d', w') →
                             ¬ dir_exists w d' ∧ dir_exists w' d') →
          ¬ dir_exists (world s) d ∧ dir_exists w1 d.
Proof.
  intros Ha Hrt Hdest Hrun. unfold do_copy in Hrun.
  read_arg_in Hrun.
  destruct (args !! "<target>") as [target|] eqn:Htarget; cycle 1.
  { exfalso. destruct (truthy given); simpl in Hrun.
    - read_arg_in Hrun.
      read_runtime_in Hrun.
      erewrite bind_Raise in Hrun; [done|].
      unfold arg, get_args, lift, getitem, mbind, M_bind.
      by rewrite Ha, Htarget.
    - apply bind_inv_Ok in Hrun as (dest & s1 & Hmk & Hrun).
      apply bind_inv_Ok in Hmk as (d & s0 & Hmk & [= <- <-]).
      apply (invoke_inv_Ok (mkdtemp "peru_copy_")) in Hmk as (w1 & _ & ->).
      read_runtime_in Hrun.
      erewrite bind_Raise in Hrun; [done|].
      unfold arg, get_args, lift, getitem, mbind, M_bind. simpl.
      by rewrite Ha, Htarget. }
  exists target.
  destruct (truthy given) eqn:Htruthy; simpl in Hrun.
  - read_arg_in Hrun.
    read_runtime_in Hrun.
    read_arg_in Hrun.
    apply bind_inv_Ok in Hrun as (tree & s1 & Htree & Hrun).
    apply (invoke_inv_Ok (get_tree rt target)) in Htree as (w1 & _ & ->).
    read_runtime_in Hrun.
    apply bind_inv_Ok in Hrun as ([] & s2 & Hexp & Hrun).
    apply (invoke_inv_Ok (export_tree rt tree given (force rt))) in Hexp
      as (w2 & _ & ->).
    read_arg_in Hrun.
    rewrite Htruthy in Hrun. simpl in Hrun. injection Hrun as <-.
    exists tree. split; [done|]. simpl. by rewrite <- app_assoc.
  - apply bind_inv_Ok in Hrun as (dest & s1 & Hmk & Hrun).
    apply bind_inv_Ok in Hmk as (d & s0 & Hmk & [= <- <-]).
    apply (invoke_inv_Ok (mkdtemp "peru_copy_")) in Hmk as (w1 & Hmk & ->).
    read_runtime_in Hrun.
    read_arg_in Hrun.
    apply bind_inv_Ok in Hrun as (tree & s1 & Htree & Hrun).
    apply (invoke_inv_Ok (get_tree rt target)) in Htree as (w2 & _ & ->).
    read_runtime_in Hrun.
    apply bind_inv_Ok in Hrun as ([] & s2 & Hexp & Hrun).
    apply (invoke_inv_Ok (export_tree rt tree (VStr d) (force rt))) in Hexp
      as (w3 & _ & ->).
    read_arg_in Hrun.
    rewrite Htruthy in Hrun. simpl in Hrun. rewrite print_eq in Hrun.
    injection Hrun as <-.
    exists tree. split; [done|]. exists d, w1. split_and!.
    + done.
    + simpl. by rewrite <- !app_assoc.
    + intros dir_exists Hfresh. exact (Hfresh _ _ _ _ Hmk).
Qed.

(** C10. [do_copy] without a destination (a false value under [<dest>]),
    once the temporary directory is made: if resolving the target raises, or if the export raises, the
    handler ends with that exception and has printed nothing; the path is
    printed only when the export has returned, as the last thing done. *)
Theorem C10_copy_prints_only_after_export args rt given target d w1 s :
  self_args s = Some args → self_runtime s = Some rt →
  args !! "<dest>" = Some given → truthy given = false →
  args !! "<target>" = Some target →
  perform (mkdtemp "peru_copy_") (world s) = (Ok d, w1) →
  match perform (get_tree rt target) w1 with
  | (Raise e, w2) =>
      do_copy s =
        (Raise e, after s w2 [ Called (mkdtemp "peru_copy_") None;
                               Called (get_tree rt target) (Some e) ])
  | (Ok tree, w2) =>
      match perform (export_tree rt tree (VStr d) (force rt)) w2 with
      | (Raise e, w3) =>
          do_copy s =
            (Raise e,
             after s w3
               [ Called (mkdtemp "peru_copy_") None;
                 Called (get_tree rt target) None;
                 Called (export_tree rt tree (VStr d) (force rt)) (Some e) ])
      | (Ok _, w3) =>
          do_copy s =
            (Ok tt,
             after s w3
               [ Called (mkdtemp "peru_copy_") None;
                 Called (get_tree rt target) None;
                 Called (export_tree rt tree (VStr d) (force rt)) None;
                 Printed (VStr d) LF ])
      end
  end.
Proof.
  intros Ha Hrt Hdest Hfalsy Htarget Hmk. unfold do_copy.
  read_arg.
  rewrite Hfalsy. simpl.
  assert ((dir ← invoke (mkdtemp "peru_copy_"); mret (VStr dir)) s =
          (Ok (VStr d), after s w1 [Called (mkdtemp "peru_copy_") None]))
    as Hdir.
  { erewrite bind_Ok; [done|]. by rewrite invoke_eq, Hmk. }
  erewrite bind_Ok by exact Hdir.
  read_runtime.
  read_arg.
  destruct (perform (get_tree rt target) w1) as [[tree|e] w2] eqn:Htree.
  - erewrite bind_Ok by (by rewrite invoke_eq; simpl; rewrite Htree).
    read_runtime.
    destruct (perform (export_tree rt tree (VStr d) (force rt)) w2)
      as [[[]|e] w3] eqn:Hexp.
    + erewrite bind_Ok by (by rewrite invoke_eq; simpl; rewrite Hexp).
      read_arg.
      rewrite Hfalsy. simpl. by rewrite print_eq, !after_after.
    + erewrite bind_Raise by (by rewrite invoke_eq; simpl; rewrite Hexp).
      by rewrite !after_after.
  - erewrite bind_Raise by (by rewrite invoke_eq; simpl; rewrite Htree).
    by rewrite after_after.
Qed.

(** C2. When docopt yields a dictionary in which no registered path has
    all its tokens mapped to true values, [find_matching_command] returns
    [None] and [run] only prints: the version string and a line feed when
    [--version] is mapped to a true value, the usage text as it is
    otherwise. No runtime is built and no collaborator is called. *)
Theorem C2_no_match_prints_version_or_usage argv env args s :
  docopt __doc__ argv = Ok args →
  has_usage_keys args →
  (∀ cmds f, (cmds, f) ∈ commands_map → ¬ candidate args cmds) →
  find_matching_command args = Ok None ∧
  ∃ v, args !! "--version" = Some v ∧
    run argv env s =
      (Ok tt,
       {| world := world s; isatty := isatty s;
          trace := trace s ++
            [ if truthy v then Printed (VStr __version__) LF
              else Printed (VStr __doc__) "" ];
          self_args := Some args; self_runtime := self_runtime s |}).
Proof.
  intros Hdoc Hkeys Hnone.
  pose proof (no_candidate_no_match args Hkeys Hnone) as Hfind.
  split; [done|].
  assert (is_Some (args !! "--version")) as [v Hv].
  { unfold has_usage_keys in Hkeys. rewrite Forall_forall in Hkeys.
    apply Hkeys. by_evaluation. }
  exists v. split; [done|].
  unfold run, set_args, get_args, arg, lift, getitem, print, log, mbind,
    M_bind. simpl.
  rewrite Hdoc. simpl. rewrite Hfind. simpl. rewrite Hv. simpl.
  by destruct (truthy v).
Qed.

End Handlers.

(** ** The properties at concrete command lines *)

Lemma no_candidate_by_test args :
  forallb (λ m : Path * handler, negb (candidateb args m.1)) commands_map = true →
  ∀ cmds f, (cmds, f) ∈ commands_map → ¬ candidate args cmds.
Proof.
  rewrite forallb_forall. intros Htest cmds f Hin Hc.
  apply list_elem_of_In, Htest in Hin. simpl in Hin.
  apply candidateb_true in Hc. by rewrite Hc in Hin.
Qed.

Lemma String_length_app (s1 s2 : string) :
  String.length (s1 +:+ s2) = String.length s1 + String.length s2.
Proof. induction s1 as [|a s1 IH]; simpl; [done | by rewrite IH]. Qed.

Lemma pad_length n : String.length (pad n) = n.
Proof. induction n as [|n IH]; simpl; [done | by rewrite IH]. Qed.

Lemma longest_name_ge names name :
  name ∈ names → String.length name ≤ longest_name names.
Proof.
  induction names as [|n names IH]; simpl.
  - by intros ?%elem_of_nil.
  - intros [->|Hin]%elem_of_cons; [lia|]. specialize (IH Hin). lia.
Qed.

Lemma fresh_dir_fresh prefix existing : fresh_dir prefix existing ∉ existing.
Proof.
  intros Hin%longest_name_ge. unfold fresh_dir in Hin.
  rewrite String_length_app, pad_length in Hin. lia.
Qed.

Lemma sample_mkdtemp_fresh prefix (w : list string) d w' :
  sample_perform (mkdtemp prefix) w = (Ok d, w') → (d ∉ w) ∧ (d ∈ w').
Proof.
  simpl. intros [= <- <-]. split; [apply fresh_dir_fresh | left].
Qed.

(** With [override], [add] and [delete] all set, the two paths of length
    two are both candidates and only one handler is returned: in whatever
    order the registry is iterated, one of the two longer paths loses
    although [(override)] is nested in it. *)
Lemma nested_paths_tie_in_any_order (reg : list (Path * handler)) :
  reg ≡ₚ commands_map →
  ¬ (∀ (A B : Path) (fA fB : handler),
       (A, fA) ∈ reg → (B, fB) ∈ reg → A ⊆ B → ¬ B ⊆ A →
       candidate args_add_and_delete B →
       find_matching_command_in reg args_add_and_delete = Ok (Some fB)).
Proof.
  intros Hperm Hclaim.
  assert (∀ m, m ∈ commands_map → m ∈ reg) as Hin.
  { intros m Hm. by rewrite Hperm. }
  assert (∀ sub, sub ≠ "override" → ¬ ["override"; sub] ⊆ ["override"])
    as Hstrict.
  { intros sub Hsub Hincl. assert (sub ∈ ["override"]) as Hmem.
    { apply Hincl. right. left. }
    by apply list_elem_of_singleton in Hmem. }
  assert (["override"] ⊆ ["override"; "add"]) as Hadd.
  { intros token ->%list_elem_of_singleton. left. }
  assert (["override"] ⊆ ["override"; "delete"]) as Hdelete.
  { intros token ->%list_elem_of_singleton. left. }
  pose proof (Hclaim ["override"] ["override"; "add"]
                do_override_h do_override_add_h) as Hfirst.
  pose proof (Hclaim ["override"] ["override"; "delete"]
                do_override_h do_override_delete_h) as Hsecond.
  rewrite Hfirst in Hsecond.
  - assert (Ok (Some do_override_add_h) = Ok (Some do_override_delete_h))
      as Heq; [|discriminate Heq].
    apply Hsecond; [apply Hin; by_evaluation.. | done | by apply Hstrict |].
    apply candidateb_true. by vm_compute.
  - apply Hin. by_evaluation.
  - apply Hin. by_evaluation.
  - done.
  - by apply Hstrict.
  - apply candidateb_true. by vm_compute.
Qed.

(** [peru override add m p]: [(override)] is nested in [(override, add)]
    and the handler found is [do_override_add]. *)
Lemma C1_witness :
  usage_dictionary args_override_add ∧
  candidate args_override_add ["override"; "add"] ∧
  find_matching_command args_override_add = Ok (Some do_override_add_h) ∧
  do_override_add_h ≠ do_override_h.
Proof.
  assert (usage_dictionary args_override_add) as Husage.
  { split; [by_evaluation|]. intros [_ Hdelete].
    apply presentb_true in Hdelete. by vm_compute in Hdelete. }
  assert (candidate args_override_add ["override"; "add"]) as Hcand.
  { apply candidateb_true. by vm_compute. }
  split_and!; [exact Husage | exact Hcand | |];
    apply (C1_nested_paths_dispatch_to_the_longer args_override_add
             ["override"] ["override"; "add"] do_override_h do_override_add_h);
    try first [exact Husage | exact Hcand | by_evaluation].
Defined.

(** The presence test on [(override, add)] for [peru override add m p]. *)
Lemma C3_witness :
  covers args_override_add commands_map ∧
  (all_args args_override_add ["override"; "add"] = Ok true ↔
     ∀ token, token ∈ ["override"; "add"] →
       ∃ v, args_override_add !! token = Some v ∧ truthy v = true) ∧
  ∃ ms, matches_of args_override_add commands_map = Ok ms ∧
    ((["override"; "add"], do_override_add_h) ∈ ms ↔
       ∀ token, token ∈ ["override"; "add"] →
         ∃ v, args_override_add !! token = Some v ∧ truthy v = true) ∧
    (∀ token v, token ∈ ["override"; "add"] →
       args_override_add !! token = Some v →
       v = VBool false ∨ v = VStr "" ∨ v = VList [] →
       all_args args_override_add ["override"; "add"] = Ok false ∧
       (["override"; "add"], do_override_add_h) ∉ ms).
Proof.
  assert (covers args_override_add commands_map) as Hcov.
  { apply has_usage_keys_covers. by_evaluation. }
  split; [exact Hcov|].
  apply (C3_candidate_iff_all_tokens_truthy commands_map args_override_add
           ["override"; "add"] do_override_add_h Hcov).
  by_evaluation.
Defined.

(** [peru --version] matches no command and prints the version. *)
Lemma C2_witness :
  has_usage_keys args_version ∧
  find_matching_command args_version = Ok None ∧
  ∃ v, args_version !! "--version" = Some v ∧
    @run sample_objects sample_collaborators ["--version"] sample_env
      (sample_start false) =
      (Ok tt,
       @mkState sample_objects [] false
         [ if truthy v then Printed (VStr __version__) LF
           else Printed (VStr __doc__) "" ]
         (Some args_version) None).
Proof.
  assert (has_usage_keys args_version) as Hkeys.
  { by_evaluation. }
  split; [exact Hkeys|].
  apply (@C2_no_match_prints_version_or_usage sample_objects
           sample_collaborators ["--version"] sample_env args_version
           (sample_start false)).
  - reflexivity.
  - exact Hkeys.
  - apply no_candidate_by_test. by vm_compute.
Defined.

(** [peru reup a bad c] with a resolver that answers with the modules
    named. *)
Lemma C4_witness :
  args_reup !! "<modules>" = Some (VList ["a"; "bad"; "c"]) ∧
  ((∃ w', @do_reup sample_objects sample_collaborators
            (sample_dispatched args_reup) =
          (Ok tt,
           after (sample_dispatched args_reup) w'
             (Called (get_modules sample_runtime (VList ["a"; "bad"; "c"])) None
              :: reups_ok sample_runtime ["a"; "bad"; "c"]))) ∨
   (∃ (pre : list (@Module sample_objects)) (m : @Module sample_objects)
      post e w',
      ["a"; "bad"; "c"] = pre ++ m :: post ∧
      @do_reup sample_objects sample_collaborators
        (sample_dispatched args_reup) =
      (Raise e,
       after (sample_dispatched args_reup) w'
         (Called (get_modules sample_runtime (VList ["a"; "bad"; "c"])) None
          :: reups_ok sample_runtime pre ++
               [Called (module_reup m sample_runtime) (Some e)])))).
Proof.
  assert (args_reup !! "<modules>" = Some (VList ["a"; "bad"; "c"])) as Hgiven.
  { by vm_compute. }
  split; [exact Hgiven|].
  exact (@C4_reup_in_order_until_first_failure sample_objects
           sample_collaborators args_reup sample_runtime
           (VList ["a"; "bad"; "c"]) (sample_dispatched args_reup)
           eq_refl eq_refl Hgiven).
Defined.

(** [peru override delete x] on a table without [x]. *)
Lemma C5_witness :
  find_matching_command args_override_delete = Ok (Some do_override_delete_h) ∧
  overrides sample_runtime !! "x" = None ∧
  @main sample_objects sample_collaborators
    (Some ["override"; "delete"; "x"]) (Some sample_env) (sample_start false) =
  (Raise (KeyError (VStr "x")),
   @mkState sample_objects [] false
     [Called (Runtime_new args_override_delete sample_env) None]
     (Some args_override_delete) (Some sample_runtime)).
Proof.
  assert (find_matching_command args_override_delete
          = Ok (Some do_override_delete_h)) as Hfind by (by vm_compute).
  assert (overrides sample_runtime !! "x" = None) as Hmissing
    by (by vm_compute).
  split_and!; [exact Hfind | exact Hmissing |].
  apply (@C5_override_delete_missing_key_propagates sample_objects
           sample_collaborators ["override"; "delete"; "x"] sample_env
           args_override_delete "x" sample_runtime [] (sample_start false)).
  - reflexivity.
  - exact Hfind.
  - by vm_compute.
  - reflexivity.
  - exact Hmissing.
Defined.


(** [do_sync] and [do_clean] on the sample runtime. *)
Lemma C8_witness :
  @do_sync sample_objects sample_collaborators (sample_dispatched args_version) =
    (Ok tt,
     after (sample_dispatched args_version) []
       [Called (apply_imports sample_runtime None) None]) ∧
  @do_clean sample_objects sample_collaborators (sample_dispatched args_version) =
    (Ok tt,
     after (sample_dispatched args_version) []
       [Called (apply_imports sample_runtime (Some ∅)) None]).
Proof.
  exact (@C8_clean_and_sync_share_apply_imports sample_objects
           sample_collaborators sample_runtime
           (sample_dispatched args_version) eq_refl).
Defined.

(** [peru override] on the sample table, which holds [curl] and [zlib]. *)
Lemma C9_witness :
  ∃ names : list string,
    names ≡ₚ dict_keys (overrides sample_runtime) ∧
    StronglySorted String.le names ∧
    @do_override sample_objects sample_collaborators
      (sample_dispatched args_version) =
      (Ok tt,
       after (sample_dispatched args_version) []
         ((λ name,
             Printed (VStr (name +:+ ": " +:+
                            default "None"
                              (sample_get_override sample_runtime name))) LF)
            <$> names)) ∧
    ((∀ name, sample_get_override sample_runtime name
              = overrides sample_runtime !! name) →
     ∃ entries : list (string * string),
       entries ≡ₚ map_to_list (overrides sample_runtime) ∧
       entries.*1 = names ∧
       @do_override sample_objects sample_collaborators
         (sample_dispatched args_version) =
       (Ok tt,
        after (sample_dispatched args_version) [] (override_lines entries))).
Proof.
  exact (@C9_override_prints_sorted_entries sample_objects
           sample_collaborators sample_runtime
           (sample_dispatched args_version) eq_refl).
Defined.

(** [peru copy lib]: a directory is made and its path is printed. *)
Lemma C7_witness :
  ∃ s',
    @do_copy sample_objects sample_collaborators (sample_dispatched args_copy)
    = (Ok tt, s') ∧
    ∃ target tree,
      args_copy !! "<target>" = Some target ∧
      ∃ d (w1 : list string),
        sample_perform (mkdtemp "peru_copy_") [] = (Ok d, w1) ∧
        trace s' =
          [ Called (mkdtemp "peru_copy_") None;
            Called (get_tree sample_runtime target) None;
            Called (export_tree sample_runtime tree (VStr d) (VBool false)) None;
            Printed (VStr d) LF ] ∧
        ∀ dir_exists : list string → string → Prop,
          (∀ prefix w d' w',
             sample_perform (mkdtemp prefix) w = (Ok d', w') →
             ¬ dir_exists w d' ∧ dir_exists w' d') →
          ¬ dir_exists [] d ∧ dir_exists w1 d.
Proof.
  eexists. split.
  - vm_compute. reflexivity.
  - match goal with
    | |- ∃ target tree, _ ∧ ∃ d w1, _ ∧ trace ?s' = _ ∧ _ =>
        apply (@C7_copy_destination_and_output sample_objects
                 sample_collaborators args_copy sample_runtime VNone
                 (sample_dispatched args_copy) s')
    end.
    + reflexivity.
    + reflexivity.
    + by vm_compute.
    + vm_compute. reflexivity.
Defined.

(** [peru copy lib '']: a destination is given, the empty string, and
    [do_copy] returns; yet it has made a temporary directory, exported to
    it and printed its path. So a [do_copy] that returns with a string
    under [<dest>] has not always printed nothing. *)
Lemma C7_counterexample :
  ¬ (∀ (args : Args) (dest : string) (s s' : @state sample_objects),
       self_args s = Some args → self_runtime s = Some sample_runtime →
       args !! "<dest>" = Some (VStr dest) →
       @do_copy sample_objects sample_collaborators s = (Ok tt, s') →
       calls_only s s').
Proof.
  intros Hclaim.
  destruct (Hclaim args_copy_empty_dest ""
              (sample_dispatched args_copy_empty_dest)
              (@do_copy sample_objects sample_collaborators
                 (sample_dispatched args_copy_empty_dest)).2)
    as (events & Htrace & Hcalls & _).
  - reflexivity.
  - reflexivity.
  - by vm_compute.
  - by vm_compute.
  - vm_compute in Htrace. subst events.
    do 3 (apply Forall_cons in Hcalls as [_ Hcalls]).
    apply Forall_cons in Hcalls as [Hprinted _]. exact Hprinted.
Qed.

(** [peru copy lib] where resolving and exporting both return. *)
Lemma C10_witness :
  args_copy !! "<dest>" = Some VNone ∧
  @do_copy sample_objects sample_collaborators (sample_dispatched args_copy) =
  (Ok tt,
   after (sample_dispatched args_copy) ["peru_copy_x"]
     [ Called (mkdtemp "peru_copy_") None;
       Called (get_tree sample_runtime (VStr "lib")) None;
       Called (export_tree sample_runtime "tree" (VStr "peru_copy_x")
                 (VBool false)) None;
       Printed (VStr "peru_copy_x") LF ]).
Proof.
  assert (args_copy !! "<dest>" = Some VNone) as Hdest by (by vm_compute).
  assert (args_copy !! "<target>" = Some (VStr "lib")) as Htarget
    by (by vm_compute).
  split; [exact Hdest|].
  exact (@C10_copy_prints_only_after_export sample_objects
           sample_collaborators args_copy sample_runtime VNone (VStr "lib")
           "peru_copy_x" ["peru_copy_x"] (sample_dispatched args_copy)
           eq_refl eq_refl Hdest eq_refl Htarget eq_refl).
Defined.

(** * Further properties of the registry and of the dispatch *)

Section MoreRegistryFacts.
Context {H : Type}.
Implicit Types (reg ms : list (Path * H)) (args : Args) (m : Path * H).

Lemma dict_set_keys reg key f :
  (dict_set reg key f).*1 =
  if decide (key ∈ reg.*1) then reg.*1 else reg.*1 ++ [key].
Proof.
  induction reg as [|[k g] reg IH].
  - destruct (decide (key ∈ ([] : list (Path * H)).*1)) as [Hin|_]; [|done].
    by apply elem_of_nil in Hin.
  - change (((k, g) :: reg).*1) with (k :: reg.*1). simpl.
    destruct (decide (k = key)) as [->|Hne].
    + by rewrite decide_True by left.
    + change (((k, g) :: dict_set reg key f).*1)
        with (k :: (dict_set reg key f).*1).
      rewrite IH. destruct (decide (key ∈ reg.*1)) as [Hin|Hout].
      * by rewrite decide_True by (by right).
      * rewrite decide_False; [done|].
        intros [->|Hin]%elem_of_cons; [done | by apply Hout].
Qed.

Lemma dict_set_fresh reg key f :
  key ∉ reg.*1 → dict_set reg key f = reg ++ [(key, f)].
Proof.
  induction reg as [|[k g] reg IH]; csimpl; intros Hout; [done|].
  rewrite decide_False by (intros ->; apply Hout; left).
  rewrite IH; [done|]. intros Hin. apply Hout. by right.
Qed.

Lemma dict_set_elem reg key f k g :
  NoDup reg.*1 →
  (k, g) ∈ dict_set reg key f ↔ (k = key ∧ g = f) ∨ (k ≠ key ∧ (k, g) ∈ reg).
Proof.
  induction reg as [|[k0 g0] reg IH]; csimpl; intros Hnd.
  - rewrite list_elem_of_singleton. split.
    + intros [= -> ->]. by left.
    + intros [[-> ->]|[_ Hin]]; [done | by apply elem_of_nil in Hin].
  - apply NoDup_cons in Hnd as [Hout Hnd].
    destruct (decide (k0 = key)) as [->|Hne].
    + rewrite !elem_of_cons. split.
      * intros [[= -> ->]|Hin]; [by left|]. right.
        split; [|by right]. intros ->. apply Hout.
        apply (list_elem_of_fmap_2 fst) in Hin. exact Hin.
      * intros [[-> ->]|[Hk [[= -> ->]|Hin]]]; [by left | done | by right].
    + rewrite elem_of_cons, (IH Hnd), elem_of_cons. split.
      * intros [[= -> ->]|[[-> ->]|[Hk Hin]]].
        -- right. split; [done | by left].
        -- by left.
        -- right. split; [done | by right].
      * intros [[-> ->]|[Hk [[= -> ->]|Hin]]].
        -- right. by left.
        -- by left.
        -- right. right. by split.
Qed.

(** X1. [command] on a registry whose paths are distinct: the paths stay
    distinct; the path registered is bound to the handler given and to no
    other, so a second registration of a path replaces the first; every
    other path keeps its handler; a path already there keeps its place in
    the iteration order and a new one goes last. *)
Theorem command_registers_or_replaces reg (path : Path) (f : H) :
  NoDup reg.*1 →
  NoDup (command path f reg).*1 ∧
  (∀ p g, (p, g) ∈ command path f reg ↔
            (p = path ∧ g = f) ∨ (p ≠ path ∧ (p, g) ∈ reg)) ∧
  (command path f reg).*1 =
    (if decide (path ∈ reg.*1) then reg.*1 else reg.*1 ++ [path]).
Proof.
  intros Hnd. unfold command. split_and!.
  - rewrite dict_set_keys. case_decide as Hin; [done|].
    apply NoDup_app. split_and!; [done | | apply NoDup_singleton].
    intros p Hp ->%list_elem_of_singleton. by apply Hin.
  - intros p g. by apply dict_set_elem.
  - apply dict_set_keys.
Qed.

Lemma longest_from_split m ms :
  ∃ before after,
    m :: ms = before ++ longest_from m ms :: after ∧
    (∀ m', m' ∈ before → length m'.1 < length (longest_from m ms).1) ∧
    (∀ m', m' ∈ after → length m'.1 ≤ length (longest_from m ms).1).
Proof.
  revert m. induction ms as [|[c g] ms IH]; intros m; simpl.
  - exists [], []. split_and!; [done | |]; by intros m' ?%elem_of_nil.
  - case_decide as Hlt.
    + destruct (IH (c, g)) as (before & after & Heq & Hb & Ha).
      exists (m :: before), after. split_and!.
      * by rewrite Heq.
      * intros m' [->|Hin]%elem_of_cons; [|by apply Hb].
        pose proof (longest_from_ge (c, g) ms). simpl in *. lia.
      * done.
    + destruct (IH m) as (before & after & Heq & Hb & Ha).
      pose proof (longest_from_ge m ms) as Hge.
      generalize dependent (longest_from m ms). intros L Heq Hb Ha Hge.
      destruct before as [|m0 before]; simpl in Heq.
      * injection Heq as <- <-. exists [], ((c, g) :: ms). split_and!.
        -- done.
        -- by intros m' ?%elem_of_nil.
        -- intros m' [->|Hin]%elem_of_cons; [simpl in *; lia | by apply Ha].
      * injection Heq as <- ->.
        exists (m :: (c, g) :: before), after. split_and!; [done | | done].
        intros m' [->|[->|Hin]%elem_of_cons]%elem_of_cons.
        -- apply Hb. left.
        -- assert (length m.1 < length L.1) as Hm by (apply Hb; left).
           simpl in *. lia.
        -- apply Hb. by right.
Qed.

Lemma filter_split (P : Path * H → Prop) `{∀ m, Decision (P m)}
    reg before m after :
  filter P reg = before ++ m :: after →
  ∃ reg1 reg2, reg = reg1 ++ m :: reg2 ∧
               filter P reg1 = before ∧ filter P reg2 = after.
Proof.
  revert before. induction reg as [|m0 reg IH]; intros before Heq.
  - rewrite filter_nil in Heq. by destruct before.
  - rewrite filter_cons in Heq. destruct (decide (P m0)) as [HP|HP].
    + destruct before as [|b before]; simpl in Heq.
      * injection Heq as -> Hafter. by exists [], reg.
      * injection Heq as -> Hrest.
        destruct (IH _ Hrest) as (reg1 & reg2 & -> & <- & <-).
        exists (b :: reg1), reg2. by rewrite filter_cons_True.
    + destruct (IH _ Heq) as (reg1 & reg2 & -> & <- & <-).
      exists (m0 :: reg1), reg2. by rewrite filter_cons_False.
Qed.

(** X2. What [find_matching_command] returns when it returns: [None]
    only when no registered path is a candidate; otherwise the handler of
    a candidate such that every candidate before it in the iteration order
    of the registry is strictly shorter and no candidate after it is
    longer, that is the first of the longest candidates. *)
Theorem find_returns_first_longest_candidate reg args (r : option H) :
  find_matching_command_in reg args = Ok r →
  match r with
  | None => ∀ cmds f, (cmds, f) ∈ reg → ¬ candidate args cmds
  | Some f =>
      ∃ cmds before after,
        reg = before ++ (cmds, f) :: after ∧ candidate args cmds ∧
        (∀ m, m ∈ before → candidate args m.1 → length m.1 < length cmds) ∧
        (∀ m, m ∈ after → candidate args m.1 → length m.1 ≤ length cmds)
  end.
Proof.
  unfold find_matching_command_in.
  destruct (matches_of args reg) as [ms|e] eqn:Hms; simpl; [|done].
  intros [= <-]. apply matches_of_Ok in Hms.
  destruct ms as [|m0 ms]; simpl.
  - intros cmds f Hin Hc.
    assert ((cmds, f) ∈ filter (λ m, candidateb args m.1 = true) reg) as Hf.
    { apply list_elem_of_filter. split; [by apply candidateb_true | done]. }
    rewrite <- Hms in Hf. by apply elem_of_nil in Hf.
  - destruct (longest_from_split m0 ms) as (b & a & Heq & Hb & Ha).
    destruct (longest_from m0 ms) as [cmds f]. simpl in *.
    rewrite Heq in Hms. symmetry in Hms.
    assert ((cmds, f) ∈ filter (λ m, candidateb args m.1 = true) reg) as Hsel.
    { rewrite Hms. apply elem_of_app. right. left. }
    apply list_elem_of_filter in Hsel as [Hc _].
    apply filter_split in Hms as (reg1 & reg2 & -> & <- & <-).
    exists cmds, reg1, reg2. split_and!; [done | by apply candidateb_true | |].
    + intros m Hin Hm. apply Hb, list_elem_of_filter.
      split; [by apply candidateb_true | done].
    + intros m Hin Hm. apply Ha, list_elem_of_filter.
      split; [by apply candidateb_true | done].
Qed.

Lemma all_args_Raise args cmds e :
  all_args args cmds = Raise e →
  ∃ pre token post,
    cmds = pre ++ token :: post ∧ (∀ t, t ∈ pre → present args t) ∧
    args !! token = None ∧ e = KeyError (VStr token).
Proof.
  induction cmds as [|c cmds IH]; simpl; [done|].
  unfold getitem. destruct (args !! c) as [v|] eqn:Hc; simpl.
  - destruct (truthy v) eqn:Hv; [|done]. intros Hrest.
    destruct (IH Hrest) as (pre & token & post & -> & Hpre & Hnone & ->).
    exists (c :: pre), token, post. split_and!; [done | | done | done].
    intros t [->|Hin]%elem_of_cons; [by exists v | by apply Hpre].
  - intros [= <-]. exists [], c, cmds. split_and!; [done | | done | done].
    by intros t ?%elem_of_nil.
Qed.

Lemma all_args_missing args pre token post :
  (∀ t, t ∈ pre → present args t) → args !! token = None →
  all_args args (pre ++ token :: post) = Raise (KeyError (VStr token)).
Proof.
  intros Hpre Hnone. induction pre as [|c pre IH]; simpl.
  - unfold getitem. by rewrite Hnone.
  - destruct (Hpre c) as (v & Hc & Hv); [left|].
    unfold getitem. rewrite Hc. simpl. rewrite Hv. apply IH.
    intros t Ht. apply Hpre. by right.
Qed.

Lemma matches_of_Raise args reg e :
  matches_of args reg = Raise e →
  ∃ cmds f, (cmds, f) ∈ reg ∧ all_args args cmds = Raise e.
Proof.
  induction reg as [|[cmds f] reg IH]; simpl; [done|].
  destruct (all_args args cmds) as [b|e0] eqn:Hb; simpl.
  - destruct (matches_of args reg) as [ms|e1]; simpl; [done|].
    intros [= <-]. destruct (IH eq_refl) as (c & g & Hin & Hraise).
    exists c, g. split; [by right | done].
  - intros [= <-]. exists cmds, f. split; [left | done].
Qed.

Lemma matches_of_raises args reg cmds f e :
  (cmds, f) ∈ reg → all_args args cmds = Raise e →
  ∃ e', matches_of args reg = Raise e'.
Proof.
  induction reg as [|[c g] reg IH]; simpl.
  - by intros ?%elem_of_nil.
  - intros [[= <- <-]|Hin]%elem_of_cons Hraise.
    + rewrite Hraise. by eexists.
    + destruct (all_args args c) as [b|e0]; simpl; [|by eexists].
      destruct (IH Hin Hraise) as [e' ->]. by eexists.
Qed.

(** X3. [find_matching_command] raises exactly when some registered path
    has a token that is not a key of the dictionary with only true tokens
    before it in the path, so that a missing name behind a false token is
    never looked up; what it raises is the [KeyError] of such a token. *)
Theorem find_raises_KeyError_of_missing_token reg args :
  (∀ e, find_matching_command_in reg args = Raise e →
     ∃ cmds f pre token post,
       (cmds, f) ∈ reg ∧ cmds = pre ++ token :: post ∧
       (∀ t, t ∈ pre → present args t) ∧
       args !! token = None ∧ e = KeyError (VStr token)) ∧
  (∀ cmds f pre token post,
     (cmds, f) ∈ reg → cmds = pre ++ token :: post →
     (∀ t, t ∈ pre → present args t) → args !! token = None →
     ∃ e, find_matching_command_in reg args = Raise e).
Proof.
  unfold find_matching_command_in. split.
  - intros e. destruct (matches_of args reg) as [ms|e0] eqn:Hms; simpl; [done|].
    intros [= <-]. apply matches_of_Raise in Hms as (cmds & f & Hin & Hraise).
    apply all_args_Raise in Hraise as (pre & token & post & ? & ? & ? & ?).
    by exists cmds, f, pre, token, post.
  - intros cmds f pre token post Hin -> Hpre Hnone.
    destruct (matches_of_raises args reg _ f _ Hin
                (all_args_missing args pre token post Hpre Hnone)) as [e ->].
    by exists e.
Qed.

Lemma candidateb_ext args1 args2 cmds :
  (∀ token, token ∈ cmds → presentb args1 token = presentb args2 token) →
  candidateb args1 cmds = candidateb args2 cmds.
Proof.
  unfold candidateb. induction cmds as [|c cmds IH]; intros Hsame; simpl.
  - done.
  - rewrite (Hsame c) by left. f_equal. apply IH.
    intros t Ht. apply Hsame. by right.
Qed.

(** X4. The dispatch looks at nothing but the truth values of the
    registered tokens: two dictionaries that have them all as keys and
    agree on which of them are true are dispatched alike, whatever their
    flags and positional arguments. *)
Theorem dispatch_depends_on_truthiness_only reg args1 args2 :
  covers args1 reg → covers args2 reg →
  (∀ cmds f token, (cmds, f) ∈ reg → token ∈ cmds →
     presentb args1 token = presentb args2 token) →
  find_matching_command_in reg args1 = find_matching_command_in reg args2.
Proof.
  intros Hcov1 Hcov2 Hsame. unfold find_matching_command_in.
  rewrite !matches_of_covered by done. simpl. do 3 f_equal.
  clear Hcov1 Hcov2. induction reg as [|[cmds f] reg IH]; [done|].
  rewrite !filter_cons. simpl.
  rewrite (candidateb_ext args1 args2 cmds)
    by (intros t Ht; eapply Hsame; [left | done]).
  rewrite IH by (intros c g t Hin Ht; eapply Hsame; [right; exact Hin | done]).
  done.
Qed.

Lemma matches_of_app args reg1 reg2 :
  matches_of args (reg1 ++ reg2) =
  (ms1 ← matches_of args reg1; ms2 ← matches_of args reg2; mret (ms1 ++ ms2)).
Proof.
  induction reg1 as [|[cmds f] reg1 IH]; simpl.
  - by destruct (matches_of args reg2).
  - destruct (all_args args cmds) as [b|e]; simpl; [|done].
    rewrite IH. destruct (matches_of args reg1) as [ms1|e]; simpl; [|done].
    destruct (matches_of args reg2) as [ms2|e]; simpl; [|done].
    by destruct b.
Qed.

(** X5. Registering a new path does not change the dispatch of a
    dictionary in which that path fails the presence test: the handler
    found, or the exception raised, is the one of the registry before the
    registration. *)
Theorem unmatched_registration_is_invisible reg args (path : Path) (f : H) :
  path ∉ reg.*1 → all_args args path = Ok false →
  find_matching_command_in (command path f reg) args =
  find_matching_command_in reg args.
Proof.
  intros Hnew Hfalse. unfold command, find_matching_command_in.
  rewrite dict_set_fresh by done. rewrite matches_of_app. simpl.
  rewrite Hfalse. simpl.
  destruct (matches_of args reg) as [ms|e]; simpl; [|done].
  by rewrite app_nil_r.
Qed.

End MoreRegistryFacts.

(** ** The registry of [Main] *)

Lemma only_command_flags args name :
  only_command args name →
  presentb args name = true ∧
  ∀ other, other ∈ top_level → other ≠ name → presentb args other = false.
Proof.
  intros [Hset Hothers]. split; [by apply presentb_true|].
  intros other Hin Hne. apply not_true_is_false.
  rewrite presentb_true. by apply Hothers.
Qed.

(** Evaluates the dispatch once the truth values of the command names are
    known. *)
Ltac dispatch_by_flags Hkeys Honly :=
  unfold find_matching_command, find_matching_command_in;
  rewrite matches_of_covered by (by apply has_usage_keys_covers);
  rewrite commands_map_items;
  apply only_command_flags in Honly as [Hset Hothers];
  unfold candidateb; rewrite !filter_cons, filter_nil; simpl;
  rewrite ?Hset;
  rewrite ?(Hothers "sync"), ?(Hothers "build"), ?(Hothers "reup"),
    ?(Hothers "override"), ?(Hothers "copy"), ?(Hothers "clean")
    by (first [by_evaluation | done]);
  simpl;
  repeat (case_decide; try done);
  simpl; try reflexivity.

(** X6. The dictionary of a command line that names one command is
    dispatched to the handler of that command. After [override], [add]
    selects [do_override_add], [delete] without [add] selects
    [do_override_delete], and anything else, [list] included, selects
    [do_override]. *)
Theorem usage_lines_reach_their_handlers args :
  has_usage_keys args →
  (only_command args "sync" →
     find_matching_command args = Ok (Some do_sync_h)) ∧
  (only_command args "build" →
     find_matching_command args = Ok (Some do_build_h)) ∧
  (only_command args "reup" →
     find_matching_command args = Ok (Some do_reup_h)) ∧
  (only_command args "copy" →
     find_matching_command args = Ok (Some do_copy_h)) ∧
  (only_command args "clean" →
     find_matching_command args = Ok (Some do_clean_h)) ∧
  (only_command args "override" →
     find_matching_command args =
     Ok (Some (if presentb args "add" then do_override_add_h
               else if presentb args "delete" then do_override_delete_h
               else do_override_h))).
Proof.
  intros Hkeys. split_and!; intros Honly.
  - dispatch_by_flags Hkeys Honly.
  - dispatch_by_flags Hkeys Honly.
  - dispatch_by_flags Hkeys Honly.
  - dispatch_by_flags Hkeys Honly.
  - dispatch_by_flags Hkeys Honly.
  - apply only_command_flags in Honly as [Hset Hothers].
    unfold find_matching_command, find_matching_command_in.
    rewrite matches_of_covered by (by apply has_usage_keys_covers).
    rewrite commands_map_items.
    unfold candidateb. rewrite !filter_cons, filter_nil. simpl.
    rewrite Hset.
    rewrite (Hothers "sync"), (Hothers "build"), (Hothers "reup"),
      (Hothers "copy"), (Hothers "clean") by (first [by_evaluation | done]).
    destruct (presentb args "add"), (presentb args "delete"); simpl;
      repeat (case_decide; try done); reflexivity.
Qed.

(** * Further properties of the handlers and of [run] *)

Section MoreHandlers.
Context {objects : Objects} {collaborators : Collaborators}.
Implicit Types (s : state) (rt : Runtime) (args : Args) (w : World).

Lemma calls_only_refl s : calls_only s s.
Proof. exists []. by rewrite app_nil_r. Qed.

Lemma calls_only_trans s1 s2 s3 :
  calls_only s1 s2 → calls_only s2 s3 → calls_only s1 s3.
Proof.
  intros (ev1 & Ht1 & Hc1 & Hi1 & Ha1) (ev2 & Ht2 & Hc2 & Hi2 & Ha2).
  exists (ev1 ++ ev2). split_and!.
  - by rewrite Ht2, Ht1, app_assoc.
  - by apply Forall_app.
  - congruence.
  - congruence.
Qed.

Lemma silent_ret {A : Type} (a : A) : silent (mret a : M A).
Proof. intros s o s' [= <- <-]. apply calls_only_refl. Qed.

Lemma silent_raise {A : Type} (e : exn) : silent (raise e : M A).
Proof. intros s o s' [= <- <-]. apply calls_only_refl. Qed.

Lemma silent_lift {A : Type} (o : outcome A) : silent (lift o).
Proof. intros s o' s' [= <- <-]. apply calls_only_refl. Qed.

Lemma silent_bind {A B : Type} (m : M A) (f : A → M B) :
  silent m → (∀ a, silent (f a)) → silent (m ≫= f).
Proof.
  intros Hm Hf s o s'. unfold mbind, M_bind.
  destruct (m s) as [[a|e] s1] eqn:Hms.
  - intros Hfs. eapply calls_only_trans; [by eapply Hm | by eapply Hf].
  - intros [= <- <-]. by eapply Hm.
Qed.

Lemma silent_get_args : silent get_args.
Proof.
  intros s o s'. unfold get_args.
  destruct (self_args s); intros [= <- <-]; apply calls_only_refl.
Qed.

Lemma silent_get_runtime : silent get_runtime.
Proof.
  intros s o s'. unfold get_runtime.
  destruct (self_runtime s); intros [= <- <-]; apply calls_only_refl.
Qed.

Lemma silent_set_runtime rt : silent (set_runtime rt).
Proof. intros s o s' [= <- <-]. exists []. simpl. by rewrite app_nil_r. Qed.

Lemma silent_arg name : silent (arg name).
Proof.
  apply silent_bind; [apply silent_get_args | intros a; apply silent_lift].
Qed.

Lemma silent_invoke (c : call) : silent (invoke c).
Proof.
  intros s o s'. rewrite invoke_eq.
  destruct (perform c (world s)) as [r w]. intros [= <- <-].
  exists [Called c (raised_of r)]. split_and!; [done | | done | done].
  by repeat constructor.
Qed.

Lemma silent_for_each {A : Type} (xs : list A) (body : A → M unit) :
  (∀ x, silent (body x)) → silent (for_each xs body).
Proof.
  intros Hbody. induction xs as [|x xs IH]; simpl.
  - apply silent_ret.
  - apply silent_bind; [apply Hbody | by intros _].
Qed.

Lemma silent_if {A : Type} (b : bool) (m1 m2 : M A) :
  silent m1 → silent m2 → silent (if b then m1 else m2).
Proof. by destruct b. Qed.

(** Takes a handler apart into the steps above. *)
Ltac prove_silent :=
  repeat first
    [ match goal with |- silent (invoke ?c) => exact (silent_invoke c) end
    | apply silent_arg
    | apply silent_get_args
    | apply silent_get_runtime
    | apply silent_set_runtime
    | apply silent_ret
    | apply silent_raise
    | apply silent_lift
    | apply silent_for_each; intros ?
    | apply silent_if
    | apply silent_bind; [|intros ?] ].

(** X7. Of the eight handlers only [do_override] and [do_copy] write to
    standard output: whatever the collaborators do and however the handler
    ends, any other handler adds nothing but calls to the trace and leaves
    [self.args] alone. *)
Theorem handlers_other_than_override_and_copy_never_print
    (h : handler) s (o : outcome unit) s' :
  h ≠ do_override_h → h ≠ do_copy_h →
  call_handler h s = (o, s') → calls_only s s'.
Proof.
  intros Hoverride Hcopy. revert s o s'. fold (silent (call_handler h)).
  destruct h; try done; simpl.
  - unfold do_sync. prove_silent.
  - unfold do_build. prove_silent.
  - unfold do_reup. prove_silent.
  - unfold do_override_add. prove_silent.
  - unfold do_override_delete.
    apply silent_bind; [prove_silent | intros key].
    apply silent_bind; [prove_silent | intros rt].
    destruct key as [| |name|]; [prove_silent.. | | prove_silent].
    destruct (overrides rt !! name); prove_silent.
  - unfold do_clean. prove_silent.
Qed.

Lemma silent_fails_silently {A : Type} (m : M A) : silent m → fails_silently m.
Proof. intros Hm s e s' Hrun. by eapply Hm. Qed.

Lemma fails_silently_bind {A B : Type} (m : M A) (f : A → M B) :
  silent m → (∀ a, fails_silently (f a)) → fails_silently (m ≫= f).
Proof.
  intros Hm Hf s e s'. unfold mbind, M_bind.
  destruct (m s) as [[a|e0] s1] eqn:Hms.
  - intros Hfs. eapply calls_only_trans; [by eapply Hm | by eapply Hf].
  - intros [= <- <-]. by eapply Hm.
Qed.

(** X8. However [do_copy] fails, it has printed nothing: a [do_copy] that
    ends with an exception, be it from [mkdtemp], from the resolver, from
    the export or from a missing key, has added nothing but calls to the
    trace. *)
Theorem copy_that_fails_prints_nothing s (e : exn) s' :
  do_copy s = (Raise e, s') → calls_only s s'.
Proof.
  revert s e s'. fold (fails_silently do_copy). unfold do_copy.
  apply fails_silently_bind; [prove_silent | intros given].
  apply fails_silently_bind; [prove_silent | intros dest].
  apply fails_silently_bind; [prove_silent | intros rt].
  apply fails_silently_bind; [prove_silent | intros target].
  apply fails_silently_bind; [prove_silent | intros tree].
  apply fails_silently_bind; [prove_silent | intros rt'].
  apply fails_silently_bind; [prove_silent | intros _].
  apply fails_silently_bind; [prove_silent | intros given'].
  intros s e s'. by destruct (negb (truthy given')).
Qed.

(** X9. When a command is matched, [run] builds the runtime from the
    parsed dictionary and the environment before anything else and once:
    if the constructor raises, [run] ends there with that exception and no
    handler has run; otherwise the handler runs with [self.runtime] set to
    the runtime just built. *)
Theorem run_builds_the_runtime_before_the_handler
    argv (env : Env) args (h : handler) s :
  docopt __doc__ argv = Ok args →
  find_matching_command args = Ok (Some h) →
  match perform (Runtime_new args env) (world s) with
  | (Raise e, w) =>
      run argv env s =
        (Raise e,
         {| world := w; isatty := isatty s;
            trace := trace s ++ [Called (Runtime_new args env) (Some e)];
            self_args := Some args; self_runtime := self_runtime s |})
  | (Ok rt, w) =>
      run argv env s =
        call_handler h
          {| world := w; isatty := isatty s;
             trace := trace s ++ [Called (Runtime_new args env) None];
             self_args := Some args; self_runtime := Some rt |}
  end.
Proof.
  intros Hdoc Hfind.
  unfold run, set_args, get_args, set_runtime, lift, invoke, mbind, M_bind.
  simpl. rewrite Hdoc. simpl. rewrite Hfind. simpl.
  by destruct (perform (Runtime_new args env) (world s)) as [[rt|e] w].
Qed.

(** X10. [do_override_delete] on a name the Override Table holds: the
    entry of that name is gone, every other entry is as before, nothing is
    printed and no collaborator is called; deleting the same name once
    more then raises the [KeyError] of that name. *)
Theorem override_delete_removes_one_entry args rt (X path : string) s :
  self_args s = Some args → self_runtime s = Some rt →
  args !! "<module>" = Some (VStr X) →
  overrides rt !! X = Some path →
  ∃ rt',
    do_override_delete s =
      (Ok tt, {| world := world s; isatty := isatty s; trace := trace s;
                 self_args := self_args s; self_runtime := Some rt' |}) ∧
    overrides rt' !! X = None ∧
    (∀ name, name ≠ X → overrides rt' !! name = overrides rt !! name) ∧
    force rt' = force rt ∧ handles rt' = handles rt ∧
    (_ ← do_override_delete; do_override_delete) s =
      (Raise (KeyError (VStr X)),
       {| world := world s; isatty := isatty s; trace := trace s;
          self_args := self_args s; self_runtime := Some rt' |}).
Proof.
  intros Ha Hrt Hmod Hentry.
  exists {| overrides := delete X (overrides rt); force := force rt;
            handles := handles rt |}.
  assert (do_override_delete s =
          (Ok tt, {| world := world s; isatty := isatty s; trace := trace s;
                     self_args := self_args s;
                     self_runtime :=
                       Some {| overrides := delete X (overrides rt);
                               force := force rt; handles := handles rt |} |}))
    as Hfirst.
  { unfold do_override_delete.
    erewrite bind_Ok by (by eapply arg_lookup).
    erewrite bind_Ok by (by apply get_runtime_Some).
    by rewrite Hentry. }
  split_and!; [done | apply lookup_delete_eq | | done | done |].
  - intros name Hne. simpl. by apply lookup_delete_ne.
  - erewrite bind_Ok by exact Hfirst.
    unfold do_override_delete.
    erewrite bind_Ok by (by eapply arg_lookup).
    erewrite bind_Ok by (by apply get_runtime_Some).
    simpl. by rewrite lookup_delete_eq.
Qed.

(** X11. [do_override] run after a successful [do_override_delete]
    prints no line for the name deleted and exactly one line for every
    other name of the table, the names in ascending order: the names
    printed are the keys left in the table, each once. *)
Theorem override_after_delete_omits_the_name args rt (X path : string) s :
  self_args s = Some args → self_runtime s = Some rt →
  args !! "<module>" = Some (VStr X) →
  overrides rt !! X = Some path →
  ∃ rt' (names : list string),
    overrides rt' = delete X (overrides rt) ∧
    names ≡ₚ dict_keys (delete X (overrides rt)) ∧
    NoDup names ∧
    StronglySorted String.le names ∧
    (∀ name, name ∈ names ↔
               name ≠ X ∧ name ∈ dict_keys (overrides rt)) ∧
    (_ ← do_override_delete; do_override) s =
      (Ok tt,
       {| world := world s; isatty := isatty s;
          trace := trace s ++
            ((λ name,
                Printed (VStr (name +:+ ": " +:+
                               default "None" (get_override rt' name))) LF)
               <$> names);
          self_args := self_args s; self_runtime := Some rt' |}).
Proof.
  intros Ha Hrt Hmod Hentry.
  exists {| overrides := delete X (overrides rt); force := force rt;
            handles := handles rt |},
         (sorted (dict_keys (delete X (overrides rt)))).
  split_and!; [done | apply merge_sort_Permutation | |
               apply StronglySorted_merge_sort; apply _ | |].
  - unfold sorted. rewrite merge_sort_Permutation.
    apply NoDup_fst_map_to_list.
  - intros name. unfold sorted. rewrite merge_sort_Permutation.
    unfold dict_keys. rewrite !list_elem_of_fmap. split.
    + intros ([k v] & -> & Hin). apply elem_of_map_to_list in Hin.
      apply lookup_delete_Some in Hin as [Hne Hin]. simpl.
      split; [done|]. exists (k, v). split; [done|].
      by apply elem_of_map_to_list.
    + intros (Hne & [k v] & -> & Hin). apply elem_of_map_to_list in Hin.
      exists (k, v). split; [done|]. apply elem_of_map_to_list.
      by apply lookup_delete_Some.
  - assert (do_override_delete s =
            (Ok tt, {| world := world s; isatty := isatty s;
                       trace := trace s; self_args := self_args s;
                       self_runtime :=
                         Some {| overrides := delete X (overrides rt);
                                 force := force rt;
                                 handles := handles rt |} |})) as Hfirst.
    { unfold do_override_delete.
      erewrite bind_Ok by (by eapply arg_lookup).
      erewrite bind_Ok by (by apply get_runtime_Some).
      by rewrite Hentry. }
    erewrite bind_Ok by exact Hfirst.
    unfold do_override. erewrite bind_Ok by (by apply get_runtime_Some).
    by rewrite (for_each_print
                  (λ rt' key, VStr (format_override key (get_override rt' key)))
                  {| overrides := delete X (overrides rt); force := force rt;
                     handles := handles rt |}).
Qed.

(** X12. [do_build] asks the resolver for the rules named on the command
    line, passing the list as it is, and only then runs the build with
    the rules it got: if the resolver raises, no build is run and the
    exception is that of the resolver; otherwise the result of the build
    is the result of the handler. *)
Theorem build_resolves_the_rules_first args rt (names : value) s :
  self_args s = Some args → self_runtime s = Some rt →
  args !! "<rules>" = Some names →
  match perform (get_rules rt names) (world s) with
  | (Raise e, w) =>
      do_build s = (Raise e, after s w [Called (get_rules rt names) (Some e)])
  | (Ok rules, w) =>
      do_build s =
        (let '(r, w') := perform (local_do_build rt rules) w in
         (r, after s w' [ Called (get_rules rt names) None;
                          Called (local_do_build rt rules) (raised_of r) ]))
  end.
Proof.
  intros Ha Hrt Hrules. unfold do_build.
  erewrite bind_Ok by (by apply get_runtime_Some).
  erewrite bind_Ok by (by eapply arg_lookup).
  destruct (perform (get_rules rt names) (world s)) as [[rules|e] w] eqn:Hget.
  - erewrite bind_Ok by (by rewrite invoke_eq, Hget).
    erewrite bind_Ok by (by apply get_runtime_Some).
    rewrite invoke_eq. simpl.
    destruct (perform (local_do_build rt rules) w) as [r w'].
    by rewrite after_after.
  - erewrite bind_Raise; [done|]. by rewrite invoke_eq, Hget.
Qed.

End MoreHandlers.

Section MainFacts.
Context {objects : Objects} {collaborators : Collaborators}.

Lemma print_red_returns text (s : state) :
  ∃ s', print_red text s = (Ok tt, s').
Proof.
  unfold print_red, stdout_isatty, stdout_write, print, mbind, M_bind, mret,
    M_ret.
  destruct (isatty s) eqn:Htty; simpl; rewrite ?Htty; by eexists.
Qed.

(** X13. [main] returns normally only when the command has run to its
    end: it returns exactly when creating [Main] and running it returns,
    and then in the same state; whenever the run raises, [main] raises
    too. *)
Theorem main_returns_only_when_run_returns
    (argv : option (list string)) (env : option Env) (s s' : state) :
  main argv env s = (Ok tt, s') ↔
  (_ ← new_Main;
   run (default (drop 1 sys_argv) argv) (default os_environ env)) s
  = (Ok tt, s').
Proof.
  unfold main, try_except_PrintableError.
  destruct ((_ ← new_Main; run _ _) s) as [[[]|e] s1] eqn:Hrun; [done|].
  destruct e as [| |msg| | |]; try done.
  split; [|done]. unfold mbind at 1, M_bind at 1.
  destruct (truthy (VStr msg)).
  - destruct (print_red_returns msg s1) as [s2 ->]. done.
  - done.
Qed.

End MainFacts.

(** ** The further properties at concrete inputs *)

(** Registering [(override, list)] in the registry of [Main]. *)
Lemma command_registers_or_replaces_witness :
  NoDup commands_map.*1 ∧
  NoDup (command ["override"; "list"] do_override_h commands_map).*1 ∧
  (∀ p g, (p, g) ∈ command ["override"; "list"] do_override_h commands_map ↔
            (p = ["override"; "list"] ∧ g = do_override_h) ∨
            (p ≠ ["override"; "list"] ∧ (p, g) ∈ commands_map)) ∧
  (command ["override"; "list"] do_override_h commands_map).*1 =
    (if decide (["override"; "list"] ∈ commands_map.*1) then commands_map.*1
     else commands_map.*1 ++ [["override"; "list"]]).
Proof.
  assert (NoDup commands_map.*1) as Hnd by by_evaluation.
  split; [exact Hnd|].
  exact (command_registers_or_replaces commands_map ["override"; "list"]
           do_override_h Hnd).
Defined.

(** [peru override add m p] selects [do_override_add]. *)
Lemma find_returns_first_longest_candidate_witness :
  find_matching_command_in commands_map args_override_add
    = Ok (Some do_override_add_h) ∧
  ∃ cmds before after,
    commands_map = before ++ (cmds, do_override_add_h) :: after ∧
    candidate args_override_add cmds ∧
    (∀ m, m ∈ before → candidate args_override_add m.1 →
          length m.1 < length cmds) ∧
    (∀ m, m ∈ after → candidate args_override_add m.1 →
          length m.1 ≤ length cmds).
Proof.
  assert (find_matching_command_in commands_map args_override_add
          = Ok (Some do_override_add_h)) as Hfind by (by vm_compute).
  split; [exact Hfind|].
  exact (find_returns_first_longest_candidate commands_map args_override_add
           (Some do_override_add_h) Hfind).
Defined.

(** [--force] does not change the dispatch of [peru override add m p]. *)
Lemma dispatch_depends_on_truthiness_only_witness :
  find_matching_command_in commands_map args_override_add =
  find_matching_command_in commands_map args_override_add_forced.
Proof.
  apply dispatch_depends_on_truthiness_only.
  - apply has_usage_keys_covers. by_evaluation.
  - apply has_usage_keys_covers. by_evaluation.
  - intros cmds f token Hin Htoken. rewrite commands_map_items in Hin.
    repeat (apply elem_of_cons in Hin as [Hin|Hin];
            [injection Hin as -> _;
             repeat (apply elem_of_cons in Htoken as [->|Htoken];
                     [by vm_compute|]);
             by apply elem_of_nil in Htoken|]).
    by apply elem_of_nil in Hin.
Defined.

(** Registering [(override, list)] changes nothing for [peru --version]. *)
Lemma unmatched_registration_is_invisible_witness :
  all_args args_version ["override"; "list"] = Ok false ∧
  find_matching_command_in
    (command ["override"; "list"] do_override_h commands_map) args_version =
  find_matching_command_in commands_map args_version.
Proof.
  assert (all_args args_version ["override"; "list"] = Ok false) as Hfalse
    by (by vm_compute).
  split; [exact Hfalse|].
  apply unmatched_registration_is_invisible; [by_evaluation | exact Hfalse].
Defined.

(** [peru override list] is dispatched to [do_override]. *)
Lemma usage_lines_reach_their_handlers_witness :
  has_usage_keys args_override_list ∧ only_command args_override_list "override" ∧
  find_matching_command args_override_list = Ok (Some do_override_h).
Proof.
  assert (has_usage_keys args_override_list) as Hkeys by by_evaluation.
  assert (only_command args_override_list "override") as Honly.
  { split; [apply presentb_true; by vm_compute|].
    intros other Hin Hne Hp. apply presentb_true in Hp.
    vm_compute in Hin.
    repeat (apply elem_of_cons in Hin as [->|Hin];
            [first [done | by vm_compute in Hp]|]).
    by apply elem_of_nil in Hin. }
  split_and!; [exact Hkeys | exact Honly |].
  pose proof (usage_lines_reach_their_handlers args_override_list Hkeys)
    as (_ & _ & _ & _ & _ & Hoverride).
  exact (Hoverride Honly).
Defined.

(** [peru reup a bad c] fails at [bad] and has printed nothing. *)
Lemma handlers_other_than_override_and_copy_never_print_witness :
  ∃ (o : outcome unit) s',
    @call_handler sample_objects sample_collaborators do_reup_h
      (sample_dispatched args_reup) = (o, s') ∧
    calls_only (sample_dispatched args_reup) s'.
Proof.
  eexists _, _. split.
  - vm_compute. reflexivity.
  - match goal with
    | |- calls_only _ ?s' =>
        apply (@handlers_other_than_override_and_copy_never_print
                 sample_objects sample_collaborators do_reup_h
                 (sample_dispatched args_reup)
                 (Raise (PrintableError "no remote")) s')
    end; [done | done |].
    vm_compute. reflexivity.
Defined.

(** [peru copy lib] when the target cannot be resolved. *)
Lemma copy_that_fails_prints_nothing_witness :
  ∃ s',
    @do_copy sample_objects sample_collaborators_no_tree
      (sample_dispatched args_copy)
    = (Raise (PrintableError "no such target"), s') ∧
    calls_only (sample_dispatched args_copy) s'.
Proof.
  eexists. split.
  - vm_compute. reflexivity.
  - match goal with
    | |- calls_only _ ?s' =>
        apply (@copy_that_fails_prints_nothing sample_objects
                 sample_collaborators_no_tree (sample_dispatched args_copy)
                 (PrintableError "no such target") s')
    end.
    vm_compute. reflexivity.
Defined.

(** [peru reup a bad c]: the runtime is built, then [do_reup] runs. *)
Lemma run_builds_the_runtime_before_the_handler_witness :
  find_matching_command args_reup = Ok (Some do_reup_h) ∧
  @run sample_objects sample_collaborators ["reup"; "a"; "bad"; "c"]
    sample_env (sample_start false) =
  @call_handler sample_objects sample_collaborators do_reup_h
    (@mkState sample_objects [] false
       [Called (Runtime_new args_reup sample_env) None]
       (Some args_reup) (Some sample_runtime)).
Proof.
  assert (find_matching_command args_reup = Ok (Some do_reup_h)) as Hfind
    by (by vm_compute).
  split; [exact Hfind|].
  exact (@run_builds_the_runtime_before_the_handler sample_objects
           sample_collaborators ["reup"; "a"; "bad"; "c"] sample_env
           args_reup do_reup_h (sample_start false) eq_refl Hfind).
Defined.

(** [peru override delete zlib] on the sample table. *)
Lemma override_delete_removes_one_entry_witness :
  overrides sample_runtime !! "zlib" = Some "/src/zlib" ∧
  ∃ rt',
    @do_override_delete sample_objects
      (sample_dispatched args_override_delete_zlib) =
      (Ok tt, @mkState sample_objects [] false []
                (Some args_override_delete_zlib) (Some rt')) ∧
    overrides rt' !! "zlib" = None ∧
    (∀ name, name ≠ "zlib" →
       overrides rt' !! name = overrides sample_runtime !! name) ∧
    force rt' = force sample_runtime ∧ handles rt' = handles sample_runtime ∧
    (_ ← do_override_delete; do_override_delete)
      (sample_dispatched args_override_delete_zlib) =
      (Raise (KeyError (VStr "zlib")),
       @mkState sample_objects [] false []
         (Some args_override_delete_zlib) (Some rt')).
Proof.
  assert (overrides sample_runtime !! "zlib" = Some "/src/zlib") as Hentry
    by (by vm_compute).
  split; [exact Hentry|].
  apply (override_delete_removes_one_entry args_override_delete_zlib
           sample_runtime "zlib" "/src/zlib"
           (sample_dispatched args_override_delete_zlib));
    [reflexivity | reflexivity | by vm_compute | exact Hentry].
Defined.

(** [do_override] after [peru override delete zlib]: only [curl] is left. *)
Lemma override_after_delete_omits_the_name_witness :
  ∃ (rt' : @Runtime sample_objects) (names : list string),
    overrides rt' = delete "zlib" (overrides sample_runtime) ∧
    names ≡ₚ dict_keys (delete "zlib" (overrides sample_runtime)) ∧
    NoDup names ∧
    StronglySorted String.le names ∧
    (∀ name, name ∈ names ↔
               name ≠ "zlib" ∧ name ∈ dict_keys (overrides sample_runtime)) ∧
    (_ ← @do_override_delete sample_objects;
     @do_override sample_objects sample_collaborators)
      (sample_dispatched args_override_delete_zlib) =
      (Ok tt,
       @mkState sample_objects [] false
         ((λ name,
             Printed (VStr (name +:+ ": " +:+
                            default "None" (sample_get_override rt' name))) LF)
            <$> names)
         (Some args_override_delete_zlib) (Some rt')).
Proof.
  apply (@override_after_delete_omits_the_name sample_objects
           sample_collaborators args_override_delete_zlib sample_runtime
           "zlib" "/src/zlib" (sample_dispatched args_override_delete_zlib));
    [reflexivity | reflexivity | by vm_compute | by vm_compute].
Defined.

(** [peru build all] with a resolver and a build that return. *)
Lemma build_resolves_the_rules_first_witness :
  args_build !! "<rules>" = Some (VList ["all"]) ∧
  @do_build sample_objects sample_collaborators (sample_dispatched args_build) =
  (Ok tt,
   after (sample_dispatched args_build) []
     [ Called (get_rules sample_runtime (VList ["all"])) None;
       Called (local_do_build sample_runtime []) None ]).
Proof.
  assert (args_build !! "<rules>" = Some (VList ["all"])) as Hrules
    by (by vm_compute).
  split; [exact Hrules|].
  exact (@build_resolves_the_rules_first sample_objects sample_collaborators
           args_build sample_runtime (VList ["all"])
           (sample_dispatched args_build) eq_refl eq_refl Hrules).
Defined.
